(** * Range-query and test-pool engine of quran-mastery

    A shallow embedding of [src/types.ts] (the [Ayah] record and the range
    descriptors) and of the engine functions that resolve ranges, build the
    test pool and answer navigation queries, followed by the properties
    the specification states about them.

    Modelling conventions.
    - A TypeScript [number] that holds a verse coordinate is an integer [Z];
      the two places where doubles differ from integers, [+ 1]/[- 1] beyond
      the safe integers and the printing of numbers from 10^21 on, are
      excluded by hypotheses ([Js.is_safe], [Js.is_plain]) where they matter.
    - [Array.prototype.find] is [List.find], [Array.prototype.filter] is
      [List.filter]; both scan in array order.
    - [T | undefined] is [option T].
    - [Map<string, Ayah>] is an insertion-ordered association list: [set] on a
      key that is present replaces the value in place, [set] on a new key
      appends the entry, and [values()] iterates in insertion order.
    - [Array.prototype.sort] with the comparator
      [(a, b) => a.global_order - b.global_order] is the stable sort by
      [global_order]. *)

From Stdlib Require Import ZArith List String Ascii Bool Lia.
From Stdlib Require Import Sorting.Sorted Sorting.Permutation.
From Stdlib Require Import Numbers.DecimalString.
From Stdlib Require Numbers.DecimalPos Numbers.DecimalZ.
Import ListNotations.

Local Open Scope string_scope.
Local Open Scope list_scope.
Local Open Scope Z_scope.

(** ** Data model ([src/types.ts]) *)

Record Ayah : Type := mkAyah {
  verse_key : string;
  surah : Z;
  ayah : Z;
  text_indopak : string;
  page_13line : Z;
  line_numbers : list Z;
  global_order : Z;
  juz_number : Z;
  ruku_global : Z;
  ruku_in_juz : Z;
  is_ruku_start : bool;
  is_page_start : bool;
  is_page_end : bool
}.

(** [TestPoolRange = AyahRange | RukuRange | JuzRange]; the [type] tag is the
    constructor, the nested [start]/[end] objects are flattened. *)
Inductive TestPoolRange : Type :=
| AyahRange (start_surah start_ayah end_surah end_ayah : Z)
| RukuRange (start_juz start_ruku end_juz end_ruku : Z)
| JuzRange (start_juz end_juz : Z).

Inductive Direction : Type := forward | backward.

(** ** JavaScript helpers *)

Module Js.

(** [arr[i]] for an integer index: [undefined] out of range. *)
Definition index {A : Type} (arr : list A) (i : Z) : option A :=
  if i <? 0 then None else nth_error arr (Z.to_nat i).

(** [arr.length] *)
Definition length {A : Type} (arr : list A) : Z := Z.of_nat (List.length arr).

(** [Number.isSafeInteger(n)]: at most 2^53 - 1 in magnitude. A number is a
    double; on safe integers [n + 1] and [n - 1] are exact, beyond them the
    sum is rounded (2^53 + 1 is 2^53). The engine's [+ 1] and [- 1] are
    written as exact integer arithmetic below, which is the code on safe
    integers; a statement that rests on them carries [is_safe] for the
    number stepped from. *)
Definition is_safe (n : Z) : Prop :=
  -9007199254740991 <= n <= 9007199254740991.


(** The string a template literal makes of an integer that [is_plain]: its
    decimal digits, with a leading minus sign when negative. The exponent
    notation of larger numbers is not modelled: a statement that rests on
    the digits carries [is_plain] for the numbers printed. *)
Definition number_to_string (n : Z) : string :=
  NilZero.string_of_int (Z.to_int n).

(** [x || y] on values of type [Ayah | undefined]: objects are truthy. *)
Definition or_else {A : Type} (x : option A) (y : A) : A :=
  match x with Some v => v | None => y end.

End Js.

(** [Map<string, Ayah>]: entries in insertion order, keys pairwise distinct. *)
Module JsMap.

Definition t : Type := list (string * Ayah).

Definition empty : t := [].

(** [m.set(k, v)] *)
Fixpoint set (k : string) (v : Ayah) (m : t) : t :=
  match m with
  | [] => [(k, v)]
  | (k', v') :: m' =>
      if String.eqb k' k then (k', v) :: m' else (k', v') :: set k v m'
  end.

(** [m.get(k)] *)
Fixpoint get (k : string) (m : t) : option Ayah :=
  match m with
  | [] => None
  | (k', v') :: m' => if String.eqb k' k then Some v' else get k m'
  end.

Definition keys (m : t) : list string := map fst m.

(** [Array.from(m.values())] *)
Definition values (m : t) : list Ayah := map snd m.

End JsMap.

(** [arr.sort((a, b) => a.global_order - b.global_order)]: stable, so an
    element stays in front of the later elements of equal [global_order]. *)
Fixpoint insert_by_order (x : Ayah) (l : list Ayah) : list Ayah :=
  match l with
  | [] => [x]
  | y :: l' =>
      if global_order x <=? global_order y then x :: y :: l'
      else y :: insert_by_order x l'
  end.

Fixpoint sort_by_order (l : list Ayah) : list Ayah :=
  match l with
  | [] => []
  | x :: l' => insert_by_order x (sort_by_order l')
  end.

(** ** Range resolvers *)

Definition get_ayahs_between_verse_keys
    (ayahs : list Ayah) (startKey endKey : string) : list Ayah :=
  let startAyah := find (fun a => (verse_key a =? startKey)%string) ayahs in
  let endAyah := find (fun a => (verse_key a =? endKey)%string) ayahs in
  match startAyah, endAyah with
  | Some startAyah, Some endAyah =>
      if global_order startAyah >? global_order endAyah then []
      else filter (fun a => (global_order a >=? global_order startAyah)
                            && (global_order a <=? global_order endAyah)) ayahs
  | _, _ => []
  end.

Definition get_ayahs_for_ruku (ayahs : list Ayah) (juz ruku_in_juz' : Z)
    : list Ayah :=
  filter (fun a => (juz_number a =? juz)%Z && (ruku_in_juz a =? ruku_in_juz')%Z)
         ayahs.

(** After the length guard both indexed reads are defined (see
    [between_rukus_reads_defined]); the last branch is never taken. *)
Definition get_ayahs_between_rukus
    (ayahs : list Ayah) (startJuz startRuku endJuz endRuku : Z) : list Ayah :=
  let startRukuAyahs := get_ayahs_for_ruku ayahs startJuz startRuku in
  let endRukuAyahs := get_ayahs_for_ruku ayahs endJuz endRuku in
  if (Js.length startRukuAyahs =? 0)%Z || (Js.length endRukuAyahs =? 0)%Z
  then []
  else
    match Js.index startRukuAyahs 0,
          Js.index endRukuAyahs (Js.length endRukuAyahs - 1) with
    | Some first, Some last =>
        let startOrder := global_order first in
        let endOrder := global_order last in
        if startOrder >? endOrder then []
        else filter (fun a => (global_order a >=? startOrder)
                              && (global_order a <=? endOrder)) ayahs
    | _, _ => []
    end.

Definition get_ayahs_for_juz_range (ayahs : list Ayah) (startJuz endJuz : Z)
    : list Ayah :=
  if startJuz >? endJuz then []
  else filter (fun a => (juz_number a >=? startJuz)
                        && (juz_number a <=? endJuz)) ayahs.

(** ** Pool builder *)

(** The body of the outer [forEach]: the verses one descriptor resolves to. *)
Definition resolve_range (ayahs : list Ayah) (range : TestPoolRange)
    : list Ayah :=
  match range with
  | AyahRange ss sa es ea =>
      let startKey :=
        (Js.number_to_string ss ++ ":" ++ Js.number_to_string sa)%string in
      let endKey :=
        (Js.number_to_string es ++ ":" ++ Js.number_to_string ea)%string in
      get_ayahs_between_verse_keys ayahs startKey endKey
  | RukuRange sj sr ej er => get_ayahs_between_rukus ayahs sj sr ej er
  | JuzRange s e => get_ayahs_for_juz_range ayahs s e
  end.

(** [rangeAyahs.forEach(a => poolMap.set(a.verse_key, a))] *)
Definition add_all (poolMap : JsMap.t) (rangeAyahs : list Ayah) : JsMap.t :=
  fold_left (fun m a => JsMap.set (verse_key a) a m) rangeAyahs poolMap.

(** The state of [poolMap] after [ranges.forEach]. *)
Definition fill_pool (ayahs : list Ayah) (ranges : list TestPoolRange)
    (poolMap : JsMap.t) : JsMap.t :=
  fold_left (fun m range => add_all m (resolve_range ayahs range)) ranges poolMap.

Definition buildTestPool (ayahs : list Ayah) (ranges : list TestPoolRange)
    : list Ayah :=
  let poolMap := fill_pool ayahs ranges JsMap.empty in
  sort_by_order (JsMap.values poolMap).

(** ** Navigation queries *)

(** [current.global_order + 1] and [- 1]: exact when [current.global_order]
    is a safe integer ([Js.is_safe]). *)
Definition getNextAyah (ayahs : list Ayah) (current : Ayah) : option Ayah :=
  find (fun a => global_order a =? global_order current + 1)%Z ayahs.

Definition getPrevAyah (ayahs : list Ayah) (current : Ayah) : option Ayah :=
  find (fun a => global_order a =? global_order current - 1)%Z ayahs.

Definition getFirstAyahOfPage (ayahs : list Ayah) (page : Z) : option Ayah :=
  find (fun a => (page_13line a =? page)%Z && is_page_start a) ayahs.

Definition getLastAyahOfPage (ayahs : list Ayah) (page : Z) : option Ayah :=
  find (fun a => (page_13line a =? page)%Z && is_page_end a) ayahs.

Definition getFirstAyahOfRuku (ayahs : list Ayah) (rukuGlobal : Z)
    : option Ayah :=
  find (fun a => (ruku_global a =? rukuGlobal)%Z && is_ruku_start a) ayahs.

(** [rukuGlobal + 1]: exact when [rukuGlobal] is a safe integer. *)
Definition getLastAyahOfRuku (ayahs : list Ayah) (rukuGlobal : Z)
    : option Ayah :=
  let nextRukuStart :=
    find (fun a => (ruku_global a =? rukuGlobal + 1)%Z && is_ruku_start a) ayahs in
  match nextRukuStart with
  | Some nextRukuStart => getPrevAyah ayahs nextRukuStart
  | None =>
      let rukuAyahs := filter (fun a => (ruku_global a =? rukuGlobal)%Z) ayahs in
      Js.index rukuAyahs (Js.length rukuAyahs - 1)
  end.

(** The declared result type is [Ayah]; on an empty array the two indexed
    reads give [undefined], hence the [option]. *)
Definition getNearestRukuBoundary
    (ayahs : list Ayah) (current : Ayah) (direction : Direction) : option Ayah :=
  match direction with
  | forward =>
      let nextRuku :=
        find (fun a => (global_order a >? global_order current)%Z
                       && is_ruku_start a) ayahs in
      match nextRuku with
      | Some nextRuku => Some (Js.or_else (getPrevAyah ayahs nextRuku) current)
      | None => Js.index ayahs (Js.length ayahs - 1)
      end
  | backward =>
      let prevRuku :=
        find (fun a => (global_order a <? global_order current)%Z
                       && is_ruku_start a) (rev ayahs) in
      match prevRuku with
      | Some prevRuku => Some prevRuku
      | None => Js.index ayahs 0
      end
  end.


(** ** Properties of an index and of a verse in it *)

(** The array lists the verses by non-decreasing [global_order]. *)
Definition ascending (l : list Ayah) : Prop :=
  StronglySorted (fun a b => global_order a <= global_order b) l.

Definition strictly_ascending (l : list Ayah) : Prop :=
  StronglySorted (fun a b => global_order a < global_order b) l.

(** Each verse's [global_order] is one more than that of the verse listed
    before it. *)
Fixpoint consecutive (l : list Ayah) : Prop :=
  match l with
  | a :: (b :: _) as t => global_order b = global_order a + 1 /\ consecutive t
  | _ => True
  end.

(** Every integer between two [global_order] values of the index is the
    [global_order] of some verse of the index. *)
Definition gap_free (l : list Ayah) : Prop :=
  forall a b z, In a l -> In b l ->
    global_order a <= z <= global_order b ->
    exists c, In c l /\ global_order c = z.

(** A [verse_key] names one record. *)
Definition key_identifies (l : list Ayah) : Prop :=
  forall a b, In a l -> In b l -> verse_key a = verse_key b -> a = b.

(** Verses with different keys have different [global_order]. *)
Definition order_identifies (l : list Ayah) : Prop :=
  forall a b, In a l -> In b l ->
    global_order a = global_order b -> verse_key a = verse_key b.

Definition is_last (l : list Ayah) (v : Ayah) : Prop :=
  In v l /\ forall a, In a l -> global_order a <= global_order v.

Definition is_first (l : list Ayah) (v : Ayah) : Prop :=
  In v l /\ forall a, In a l -> global_order v <= global_order a.

(** [r] is the verse just before [n] in the order of [global_order]. *)
Definition immediately_precedes (l : list Ayah) (r n : Ayah) : Prop :=
  In r l /\ global_order r < global_order n
  /\ forall a, In a l -> global_order a < global_order n ->
       global_order a <= global_order r.

(** [n] is the first sub-section start after [v]. *)
Definition next_start (l : list Ayah) (v n : Ayah) : Prop :=
  In n l /\ is_ruku_start n = true /\ global_order v < global_order n
  /\ forall m, In m l -> is_ruku_start m = true ->
       global_order v < global_order m -> global_order n <= global_order m.

(** [p] is the last sub-section start before [v]. *)
Definition prev_start (l : list Ayah) (v p : Ayah) : Prop :=
  In p l /\ is_ruku_start p = true /\ global_order p < global_order v
  /\ forall m, In m l -> is_ruku_start m = true ->
       global_order m < global_order v -> global_order m <= global_order p.

(** [v] has the greatest [global_order] among the verses of sub-section [s]. *)
Definition last_of_ruku (l : list Ayah) (s : Z) (v : Ayah) : Prop :=
  In v l /\ ruku_global v = s
  /\ forall a, In a l -> ruku_global a = s -> global_order a <= global_order v.

(** The sequence of [poolMap.set] calls [buildTestPool] performs. *)
Definition writes (ayahs : list Ayah) (ranges : list TestPoolRange)
    : list Ayah :=
  flat_map (resolve_range ayahs) ranges.

(** The last record of [l] written under key [k]. *)
Definition last_write (k : string) (l : list Ayah) : option Ayah :=
  find (fun a => (verse_key a =? k)%string) (rev l).

(** Every entry of the map is filed under the key of its record. *)
Definition keyed (m : JsMap.t) : Prop :=
  forall k v, In (k, v) m -> k = verse_key v.

(** ** The invariants of the data model (specification, section 3) *)

(** [R] holds between each verse and the verse listed after it. *)
Fixpoint adjacent_all (R : Ayah -> Ayah -> bool) (l : list Ayah) : bool :=
  match l with
  | a :: (b :: _) as t => R a b && adjacent_all R t
  | _ => true
  end.

(** [a] is the first (last) verse by [global_order] among the verses of [l]
    that share its value of [f]. *)
Definition first_in (f : Ayah -> Z) (l : list Ayah) (a : Ayah) : bool :=
  forallb (fun b => implb (f b =? f a) (global_order a <=? global_order b)) l.

Definition last_in (f : Ayah -> Z) (l : list Ayah) (a : Ayah) : bool :=
  forallb (fun b => implb (f b =? f a) (global_order b <=? global_order a)) l.

Fixpoint distinct (l : list string) : bool :=
  match l with
  | [] => true
  | k :: t => negb (existsb (String.eqb k) t) && distinct t
  end.

(** The invariants as the specification lists them: [verse_key] is unique
    and has the format major:minor; [global_order] is strictly increasing
    along the index (gaps are allowed); [juz_number], [ruku_global] and
    [page_13line] are non-decreasing, which with the strict order makes the
    verses of a sub-section, and of a page, one contiguous run;
    [juz_number] is in 1..30 and pages count from 1; [is_ruku_start],
    [is_page_start] and [is_page_end] mark exactly the first verse of a
    sub-section, the first verse of a page and the last verse of a page. *)
Definition index_invariants (ayahs : list Ayah) : bool :=
  distinct (map verse_key ayahs)
  && forallb (fun a =>
       (verse_key a =?
          Js.number_to_string (surah a) ++ ":" ++ Js.number_to_string (ayah a))
       %string) ayahs
  && adjacent_all (fun a b => global_order a <? global_order b) ayahs
  && adjacent_all (fun a b => juz_number a <=? juz_number b) ayahs
  && adjacent_all (fun a b => ruku_global a <=? ruku_global b) ayahs
  && adjacent_all (fun a b => page_13line a <=? page_13line b) ayahs
  && forallb (fun a => (1 <=? juz_number a) && (juz_number a <=? 30)) ayahs
  && forallb (fun a => 1 <=? page_13line a) ayahs
  && forallb (fun a =>
       Bool.eqb (is_ruku_start a) (first_in ruku_global ayahs a)) ayahs
  && forallb (fun a =>
       Bool.eqb (is_page_start a) (first_in page_13line ayahs a)) ayahs
  && forallb (fun a =>
       Bool.eqb (is_page_end a) (last_in page_13line ayahs a)) ayahs.

(** ** Sample indexes *)

Definition verse (key : string) (s a page order juz ruku rij : Z)
    (rstart pstart pend : bool) : Ayah :=
  mkAyah key s a "" page [] order juz ruku rij rstart pstart pend.

(** Three verses in two sub-sections; [global_order] jumps from 2 to 4. *)
Definition gapped_index : list Ayah :=
  [ verse "1:1" 1 1 1 1 1 1 1 true true false;
    verse "1:2" 1 2 1 2 1 1 1 false false true;
    verse "2:1" 2 1 2 4 1 2 2 true true true ].

(** The same three verses numbered 1, 2, 3. *)
Definition dense_index : list Ayah :=
  [ verse "1:1" 1 1 1 1 1 1 1 true true false;
    verse "1:2" 1 2 1 2 1 1 1 false false true;
    verse "2:1" 2 1 2 3 1 2 2 true true true ].

(** Two verses with different keys and the same [global_order]. *)
Definition tied_index : list Ayah :=
  [ verse "1:1" 1 1 1 1 1 1 1 true true true;
    verse "1:2" 1 2 2 1 2 2 1 true true true ].

(** Two different records under one [verse_key]. *)
Definition rekeyed_index : list Ayah :=
  [ verse "1:1" 1 1 1 1 1 1 1 true true true;
    verse "1:1" 1 1 2 2 2 2 1 true true true ].

(** Ten verses numbered 1..10, sub-sections starting at 1, 4 and 8. *)
Definition ten_index : list Ayah :=
  map (fun n => verse (Js.number_to_string 1 ++ ":" ++ Js.number_to_string n)%string
                      1 n 1 n 1
                      (if n <? 4 then 1 else if n <? 8 then 2 else 3)
                      (if n <? 4 then 1 else if n <? 8 then 2 else 3)
                      ((n =? 1) || (n =? 4) || (n =? 8))
                      (n =? 1) (n =? 10))
      [1; 2; 3; 4; 5; 6; 7; 8; 9; 10].

Example sample_indexes_valid :
  index_invariants gapped_index = true /\ index_invariants dense_index = true
  /\ index_invariants ten_index = true.
Proof. repeat split; vm_compute; reflexivity. Qed.

Example number_to_string_samples :
  Js.number_to_string 0 = "0" /\ Js.number_to_string 114 = "114"
  /\ Js.number_to_string (-3) = "-3".
Proof. repeat split. Qed.

(** ** Range builder ([TestPoolBuilder] component) *)

(** [RangeType = 'ayah' | 'ruku' | 'juz'], the active tab. *)
Inductive RangeType : Type := type_ayah | type_ruku | type_juz.

(** The form state [addRange] reads: the active tab and the three pairs of
    inputs; [(surah, ayah)] and [(juz, ruku)] objects are pairs. *)
Record BuilderForm : Type := mkForm {
  activeTab : RangeType;
  ayahStart : Z * Z;
  ayahEnd : Z * Z;
  rukuStart : Z * Z;
  rukuEnd : Z * Z;
  juzStart : Z;
  juzEnd : Z
}.

(** What [addRange] leaves behind: the [error] state and the [ranges] state
    (unchanged when the function returns before [setRanges]). *)
Record BuilderResult : Type := mkResult {
  error : option string;
  new_ranges : list TestPoolRange
}.

Definition addRange (ayahs : list Ayah) (form : BuilderForm)
    (ranges : list TestPoolRange) : BuilderResult :=
  match activeTab form with
  | type_ayah =>
      let startAyah :=
        find (fun a => (surah a =? fst (ayahStart form))
                       && (ayah a =? snd (ayahStart form))) ayahs in
      let endAyah :=
        find (fun a => (surah a =? fst (ayahEnd form))
                       && (ayah a =? snd (ayahEnd form))) ayahs in
      match startAyah, endAyah with
      | Some startAyah, Some endAyah =>
          if global_order startAyah >? global_order endAyah
          then mkResult (Some "End ayah cannot be before start ayah.") ranges
          else mkResult None
                 (ranges ++ [AyahRange (fst (ayahStart form))
                                       (snd (ayahStart form))
                                       (fst (ayahEnd form))
                                       (snd (ayahEnd form))])
      | _, _ => mkResult (Some "Invalid surah or ayah number.") ranges
      end
  | type_ruku =>
      let startRukuAyahs :=
        get_ayahs_for_ruku ayahs (fst (rukuStart form)) (snd (rukuStart form)) in
      let endRukuAyahs :=
        get_ayahs_for_ruku ayahs (fst (rukuEnd form)) (snd (rukuEnd form)) in
      if (Js.length startRukuAyahs =? 0) || (Js.length endRukuAyahs =? 0)
      then mkResult (Some "Invalid ruku selection.") ranges
      else
        match Js.index startRukuAyahs 0, Js.index endRukuAyahs 0 with
        | Some s0, Some e0 =>
            if global_order s0 >? global_order e0
            then mkResult (Some "End ruku cannot be before start ruku.") ranges
            else mkResult None
                   (ranges ++ [RukuRange (fst (rukuStart form))
                                         (snd (rukuStart form))
                                         (fst (rukuEnd form))
                                         (snd (rukuEnd form))])
        | _, _ => mkResult (Some "Invalid ruku selection.") ranges
        end
  | type_juz =>
      if juzStart form >? juzEnd form
      then mkResult (Some "End juz cannot be before start juz.") ranges
      else mkResult None (ranges ++ [JuzRange (juzStart form) (juzEnd form)])
  end.

(** [arr.filter((x, i) => f(x, i))], scanning from position [i]. *)
Fixpoint filter_indexed {A : Type} (f : A -> Z -> bool) (arr : list A) (i : Z)
    : list A :=
  match arr with
  | [] => []
  | x :: arr' =>
      if f x i then x :: filter_indexed f arr' (i + 1)
      else filter_indexed f arr' (i + 1)
  end.

Definition removeRange (ranges : list TestPoolRange) (index : Z)
    : list TestPoolRange :=
  filter_indexed (fun _ i => negb (i =? index)) ranges 0.

Definition clearPool : list TestPoolRange := [].

(** [new Set(arr)]: the distinct numbers in order of first occurrence. *)
Fixpoint set_add (x : Z) (s : list Z) : list Z :=
  match s with
  | [] => [x]
  | y :: s' => if y =? x then s else y :: set_add x s'
  end.

Definition set_of (arr : list Z) : list Z :=
  fold_left (fun s x => set_add x s) arr [].

(** [arr.sort((a, b) => a - b)] on numbers. *)
Fixpoint insert_number (x : Z) (l : list Z) : list Z :=
  match l with
  | [] => [x]
  | y :: l' => if x <=? y then x :: y :: l' else y :: insert_number x l'
  end.

Fixpoint sort_numbers (l : list Z) : list Z :=
  match l with
  | [] => []
  | x :: l' => insert_number x (sort_numbers l')
  end.

Definition getValidRukus (ayahs : list Ayah) (juz : Z) : list Z :=
  let rukuSet :=
    set_of (map ruku_in_juz (filter (fun a => juz_number a =? juz) ayahs)) in
  sort_numbers rukuSet.

(** ** Study questions ([generateStudyQuestion], case [recite_to_ruku]) *)

(** The [rangeAyahs] of the case: the verses from [randomAyah] to its
    forward boundary. Reading [boundary.verse_key] of an undefined boundary
    throws, which is [None] here. *)
Definition recite_to_ruku_range (ayahs : list Ayah) (randomAyah : Ayah)
    : option (list Ayah) :=
  match getNearestRukuBoundary ayahs randomAyah forward with
  | Some boundary =>
      Some (filter (fun a => (global_order a >=? global_order randomAyah)
                             && (global_order a <=? global_order boundary))
                   ayahs)
  | None => None
  end.

(** ** Attempt statistics ([QuizView] and [ProgressView]) *)

Module Attempt.

Record t : Type := mk {
  id : Z;
  ayah_key : string;
  question_type : string;
  page_13line : Z;
  juz_number : Z;
  ruku_in_juz : Z;
  correct : bool;
  timestamp : string
}.

End Attempt.

(** [{ correct: number, total: number }] *)
Record Tally : Type := mkTally { correct : Z; total : Z }.

(** [Record<K, Tally>] read and written by key only: a lookup function.
    (The order in which [Object.entries] lists the keys is not modelled.) *)
Definition Table (K : Type) : Type := K -> option Tally.

Definition table_empty {K : Type} : Table K := fun _ => None.

Definition table_set {K : Type} (eqb : K -> K -> bool) (k : K) (v : Tally)
    (t : Table K) : Table K :=
  fun k' => if eqb k k' then Some v else t k'.

(** The three statements both views run on a table for one attempt:
    [if (!t[k]) t[k] = { correct: 0, total: 0 }; t[k].total++;
     if (a.correct) t[k].correct++]. *)
Definition tally_attempt {K : Type} (eqb : K -> K -> bool) (k : K)
    (is_correct : bool) (t : Table K) : Table K :=
  let t1 := match t k with
            | Some _ => t
            | None => table_set eqb k (mkTally 0 0) t
            end in
  let t2 := match t1 k with
            | Some s => table_set eqb k (mkTally (correct s) (total s + 1)) t1
            | None => t1
            end in
  if is_correct then
    match t2 k with
    | Some s => table_set eqb k (mkTally (correct s + 1) (total s)) t2
    | None => t2
    end
  else t2.

(** [stats] of [QuizView]: the per-page tallies. *)
Definition quiz_stats (attempts : list Attempt.t) : Table Z :=
  fold_left (fun pageStats a =>
               tally_attempt Z.eqb (Attempt.page_13line a) (Attempt.correct a)
                             pageStats)
            attempts table_empty.

(** The three tables of [ProgressView]'s [stats]. *)
Record ProgressTables : Type := mkTables {
  pageAccuracy : Table Z;
  juzAccuracy : Table Z;
  typeAccuracy : Table string
}.

(** One pass of the inner [forEach] over the indices 0, 1, 2. *)
Definition progress_step (tables : ProgressTables) (a : Attempt.t)
    : ProgressTables :=
  let t0 := mkTables
              (tally_attempt Z.eqb (Attempt.page_13line a) (Attempt.correct a)
                             (pageAccuracy tables))
              (juzAccuracy tables) (typeAccuracy tables) in
  let t1 := mkTables
              (pageAccuracy t0)
              (tally_attempt Z.eqb (Attempt.juz_number a) (Attempt.correct a)
                             (juzAccuracy t0))
              (typeAccuracy t0) in
  mkTables (pageAccuracy t1) (juzAccuracy t1)
           (tally_attempt String.eqb (Attempt.question_type a)
                          (Attempt.correct a) (typeAccuracy t1)).

(** The tables [ProgressView] builds, and [null] when there is no attempt;
    the floating-point figures derived from them are left out. *)
Definition progress_tables (attempts : list Attempt.t)
    : option ProgressTables :=
  if Js.length attempts =? 0 then None
  else Some (fold_left progress_step attempts
                       (mkTables table_empty table_empty table_empty)).




(** The verses of the pair (juz, ruku in juz) are one run of the index: a
    verse numbered between two of them is one of them. *)
Definition pair_is_run (l : list Ayah) (juz ruku : Z) : Prop :=
  forall a b c, In a l -> In b l -> In c l ->
    juz_number a = juz -> ruku_in_juz a = ruku ->
    juz_number c = juz -> ruku_in_juz c = ruku ->
    global_order a <= global_order b <= global_order c ->
    juz_number b = juz /\ ruku_in_juz b = ruku.


(** The tally a key starts from: the one stored, or zero and zero. *)
Definition tally_base (o : option Tally) : Tally :=
  match o with Some s => s | None => mkTally 0 0 end.

(** The tally of the attempts [hits] counted on top of [base]. *)
Definition tally_of (base : Tally) (hits : list Attempt.t) : Tally :=
  mkTally (correct base + Js.length (filter Attempt.correct hits))
          (total base + Js.length hits).

(** * Proofs *)

(** ** Boolean tests as propositions *)

Ltac to_prop :=
  repeat match goal with
  | H : _ && _ = true |- _ => apply andb_true_iff in H; destruct H
  | H : _ || _ = false |- _ => apply orb_false_iff in H; destruct H
  | H : (_ =? _)%Z = true |- _ => apply Z.eqb_eq in H
  | H : (_ =? _)%Z = false |- _ => apply Z.eqb_neq in H
  | H : (_ <=? _)%Z = true |- _ => apply Z.leb_le in H
  | H : (_ <=? _)%Z = false |- _ => apply Z.leb_gt in H
  | H : (_ <? _)%Z = true |- _ => apply Z.ltb_lt in H
  | H : (_ <? _)%Z = false |- _ => apply Z.ltb_ge in H
  | H : (_ >=? _)%Z = true |- _ => rewrite Z.geb_leb in H
  | H : (_ >=? _)%Z = false |- _ => rewrite Z.geb_leb in H
  | H : (_ >? _)%Z = true |- _ => rewrite Z.gtb_ltb in H
  | H : (_ >? _)%Z = false |- _ => rewrite Z.gtb_ltb in H
  | H : (_ =? _)%string = true |- _ => apply String.eqb_eq in H
  | H : (_ =? _)%string = false |- _ => apply String.eqb_neq in H
  end.

Lemma in_range_iff (lo hi x : Z) :
  (x >=? lo) && (x <=? hi) = true <-> lo <= x <= hi.
Proof.
  rewrite andb_true_iff, Z.geb_leb, !Z.leb_le. tauto.
Qed.

(** ** Arrays *)

Lemma index_zero {A : Type} (l : list A) : Js.index l 0 = hd_error l.
Proof. destruct l; reflexivity. Qed.

Lemma index_last {A : Type} (l : list A) (x : A) :
  Js.index (l ++ [x]) (Js.length (l ++ [x]) - 1) = Some x.
Proof.
  unfold Js.index, Js.length. rewrite length_app. simpl.
  replace (Z.of_nat (List.length l + 1) - 1) with (Z.of_nat (List.length l)) by lia.
  destruct (Z.ltb_spec (Z.of_nat (List.length l)) 0); [lia|].
  rewrite Nat2Z.id, nth_error_app2, Nat.sub_diag by lia. reflexivity.
Qed.

Lemma index_last_nil {A : Type} :
  Js.index (@nil A) (Js.length (@nil A) - 1) = None.
Proof. reflexivity. Qed.

(** A non-empty array ends in some element. *)
Lemma snoc_cases {A : Type} (l : list A) :
  l = [] \/ exists l' x, l = l' ++ [x].
Proof.
  destruct l as [|a l]; [now left | right].
  destruct (@exists_last _ (a :: l)) as (l' & x & E); [discriminate | eauto].
Qed.

(** ** Ascending arrays *)

Section Ascending.

Lemma ascending_filter (f : Ayah -> bool) (l : list Ayah) :
  ascending l -> ascending (filter f l).
Proof.
  unfold ascending. induction 1 as [|a l Hs IH Ha]; simpl.
  - constructor.
  - destruct (f a); [constructor|]; auto.
    rewrite Forall_forall in *. intros x Hx.
    apply filter_In in Hx. now apply Ha.
Qed.

Lemma ascending_head (l : list Ayah) (x : Ayah) :
  ascending l -> Js.index l 0 = Some x ->
  In x l /\ forall y, In y l -> global_order x <= global_order y.
Proof.
  rewrite index_zero. intros Hs Hx.
  destruct l as [|a l]; [discriminate|]. injection Hx as ->.
  split; [now left|]. intros y [<-|Hy]; [lia|].
  apply StronglySorted_inv in Hs. destruct Hs as [_ Ha].
  rewrite Forall_forall in Ha. now apply Ha.
Qed.

Lemma ascending_snoc (l : list Ayah) (x : Ayah) :
  ascending (l ++ [x]) ->
  forall y, In y (l ++ [x]) -> global_order y <= global_order x.
Proof.
  unfold ascending. induction l as [|a l IH]; simpl; intros Hs y Hy.
  - destruct Hy as [<-|[]]. lia.
  - apply StronglySorted_inv in Hs. destruct Hs as [Hs Ha].
    destruct Hy as [<-|Hy]; [|now apply IH].
    rewrite Forall_forall in Ha. apply Ha, in_or_app. right. now left.
Qed.

Lemma ascending_last (l : list Ayah) (x : Ayah) :
  ascending l -> Js.index l (Js.length l - 1) = Some x ->
  In x l /\ forall y, In y l -> global_order y <= global_order x.
Proof.
  intros Hs Hx. destruct (snoc_cases l) as [->|(l' & z & ->)].
  - discriminate.
  - rewrite index_last in Hx. injection Hx as ->. split.
    + apply in_or_app. right. now left.
    + now apply ascending_snoc.
Qed.

Lemma strictly_ascending_ascending (l : list Ayah) :
  strictly_ascending l -> ascending l.
Proof.
  unfold strictly_ascending, ascending. induction 1 as [|a l Hs IH Ha].
  - constructor.
  - constructor; auto. eapply Forall_impl; [|exact Ha].
    simpl. intros. lia.
Qed.

(** Two strictly ascending arrays with the same elements are equal. *)
Lemma strictly_ascending_ext (l1 l2 : list Ayah) :
  strictly_ascending l1 -> strictly_ascending l2 ->
  (forall a, In a l1 <-> In a l2) -> l1 = l2.
Proof.
  unfold strictly_ascending. intros H1. revert l2.
  induction H1 as [|a t1 Hs1 IH Ha]; intros l2 H2 Hin.
  - destruct l2 as [|b t2]; [reflexivity|].
    destruct (proj2 (Hin b)). now left.
  - destruct H2 as [|b t2 Hs2 Hb].
    + destruct (proj1 (Hin a)). now left.
    + rewrite Forall_forall in Ha, Hb.
      assert (a = b) as <-.
      { destruct (proj1 (Hin a) (or_introl eq_refl)) as [E|Hat]; [auto|].
        destruct (proj2 (Hin b) (or_introl eq_refl)) as [E|Hbt]; [auto|].
        specialize (Ha _ Hbt). specialize (Hb _ Hat). lia. }
      f_equal. apply IH; [assumption|]. intros x. split; intros Hx.
      * destruct (proj1 (Hin x) (or_intror Hx)) as [<-|]; [|assumption].
        specialize (Ha _ Hx). lia.
      * destruct (proj2 (Hin x) (or_intror Hx)) as [<-|]; [|assumption].
        specialize (Hb _ Hx). lia.
Qed.

Lemma consecutive_strictly_ascending (l : list Ayah) :
  consecutive l -> strictly_ascending l.
Proof.
  unfold strictly_ascending. induction l as [|a l IH]; [constructor|].
  intros Hc. destruct l as [|b l]; [repeat constructor|].
  destruct Hc as [Hab Hc]. specialize (IH Hc).
  constructor; [assumption|].
  apply StronglySorted_inv in IH. destruct IH as [_ Hb].
  constructor; [lia|]. eapply Forall_impl; [|exact Hb]. simpl. intros. lia.
Qed.

(** In a consecutive array the verse listed just before [n] carries the
    [global_order] of [n] minus one. *)
Lemma consecutive_split (l1 l2 : list Ayah) (p n : Ayah) :
  consecutive (l1 ++ p :: n :: l2) -> global_order n = global_order p + 1.
Proof.
  induction l1 as [|a l1 IH]; simpl.
  - tauto.
  - destruct l1 as [|b l1]; simpl in *; tauto.
Qed.

End Ascending.

(** ** Stable sort by [global_order] *)

Section Sort.

Lemma insert_by_order_perm (x : Ayah) (l : list Ayah) :
  Permutation (x :: l) (insert_by_order x l).
Proof.
  induction l as [|y l IH]; simpl; [reflexivity|].
  destruct (global_order x <=? global_order y); [reflexivity|].
  rewrite perm_swap. now constructor.
Qed.

Lemma sort_by_order_perm (l : list Ayah) : Permutation l (sort_by_order l).
Proof.
  induction l as [|x l IH]; simpl; [constructor|].
  rewrite <- insert_by_order_perm. now constructor.
Qed.

Lemma insert_by_order_ascending (x : Ayah) (l : list Ayah) :
  ascending l -> ascending (insert_by_order x l).
Proof.
  unfold ascending. induction 1 as [|y l Hs IH Hy]; simpl.
  - repeat constructor.
  - destruct (Z.leb_spec (global_order x) (global_order y)).
    + constructor; [now constructor|].
      constructor; [assumption|].
      eapply Forall_impl; [|exact Hy]. simpl. intros. lia.
    + constructor; [assumption|].
      rewrite Forall_forall in *. intros z Hz.
      apply (Permutation_in _ (Permutation_sym (insert_by_order_perm x l))) in Hz.
      destruct Hz as [<-|Hz]; [lia|auto].
Qed.

Lemma sort_by_order_ascending (l : list Ayah) : ascending (sort_by_order l).
Proof.
  induction l as [|x l IH]; simpl.
  - constructor.
  - now apply insert_by_order_ascending.
Qed.

Lemma sort_by_order_In (l : list Ayah) (a : Ayah) :
  In a (sort_by_order l) <-> In a l.
Proof.
  split; apply Permutation_in;
    [apply Permutation_sym|]; apply sort_by_order_perm.
Qed.

(** Stability: verses of equal [global_order] keep their relative order. *)
Lemma insert_by_order_stable (z : Z) (x : Ayah) (l : list Ayah) :
  filter (fun a => global_order a =? z) (insert_by_order x l)
  = filter (fun a => global_order a =? z) (x :: l).
Proof.
  induction l as [|y l IH]; simpl; [reflexivity|].
  destruct (Z.leb_spec (global_order x) (global_order y)) as [|Hgt];
    [reflexivity|].
  simpl in *. rewrite IH.
  destruct (Z.eqb_spec (global_order x) z) as [Ex|];
    destruct (Z.eqb_spec (global_order y) z) as [Ey|]; try reflexivity.
  lia.
Qed.

Lemma sort_by_order_stable (z : Z) (l : list Ayah) :
  filter (fun a => global_order a =? z) (sort_by_order l)
  = filter (fun a => global_order a =? z) l.
Proof.
  induction l as [|x l IH]; simpl; [reflexivity|].
  rewrite insert_by_order_stable. simpl. now rewrite IH.
Qed.

(** An ascending array in which no [global_order] repeats is strictly
    ascending. *)
Lemma ascending_distinct_strict (l : list Ayah) :
  ascending l -> NoDup (map global_order l) -> strictly_ascending l.
Proof.
  unfold strictly_ascending. induction 1 as [|a l Hs IH Ha]; simpl; intros Hn.
  - constructor.
  - apply NoDup_cons_iff in Hn. destruct Hn as [Hna Hn].
    constructor; [auto|]. rewrite Forall_forall in *. intros b Hb.
    specialize (Ha _ Hb).
    assert (global_order a <> global_order b).
    { intros E. apply Hna. rewrite E. now apply in_map. }
    lia.
Qed.

End Sort.

(** ** The insertion-ordered map *)

Section MapFacts.

Lemma get_set (k k' : string) (v : Ayah) (m : JsMap.t) :
  JsMap.get k' (JsMap.set k v m)
  = if (k =? k')%string then Some v else JsMap.get k' m.
Proof.
  induction m as [|[k0 v0] m IH]; simpl.
  - reflexivity.
  - destruct (String.eqb_spec k0 k) as [->|Hne]; simpl.
    + destruct (k =? k')%string; reflexivity.
    + rewrite IH. destruct (String.eqb_spec k0 k') as [->|Hne'].
      * destruct (String.eqb_spec k k'); congruence.
      * reflexivity.
Qed.

Lemma keys_set_present (k : string) (v : Ayah) (m : JsMap.t) :
  In k (JsMap.keys m) -> JsMap.keys (JsMap.set k v m) = JsMap.keys m.
Proof.
  induction m as [|[k0 v0] m IH]; simpl; [tauto|].
  intros Hin. destruct (String.eqb_spec k0 k) as [->|Hne]; simpl.
  - reflexivity.
  - f_equal. apply IH. destruct Hin; congruence.
Qed.

Lemma keys_set_fresh (k : string) (v : Ayah) (m : JsMap.t) :
  ~ In k (JsMap.keys m) -> JsMap.keys (JsMap.set k v m) = JsMap.keys m ++ [k].
Proof.
  induction m as [|[k0 v0] m IH]; simpl; [reflexivity|].
  intros Hin. destruct (String.eqb_spec k0 k) as [->|Hne]; simpl.
  - tauto.
  - f_equal. apply IH. tauto.
Qed.

Lemma keys_set_cases (k : string) (v : Ayah) (m : JsMap.t) :
  JsMap.keys (JsMap.set k v m) = JsMap.keys m
  \/ (~ In k (JsMap.keys m)
      /\ JsMap.keys (JsMap.set k v m) = JsMap.keys m ++ [k]).
Proof.
  destruct (in_dec string_dec k (JsMap.keys m)).
  - left. now apply keys_set_present.
  - right. split; [assumption | now apply keys_set_fresh].
Qed.

Lemma keys_set_In (k k' : string) (v : Ayah) (m : JsMap.t) :
  In k' (JsMap.keys (JsMap.set k v m)) <-> k' = k \/ In k' (JsMap.keys m).
Proof.
  destruct (in_dec string_dec k (JsMap.keys m)) as [Hin|Hin].
  - rewrite keys_set_present by assumption.
    split; [tauto | intros [->|]; assumption].
  - rewrite keys_set_fresh, in_app_iff by assumption. simpl.
    split; [intros [|[<-|[]]] | intros [->|]]; tauto.
Qed.

Lemma keys_set_NoDup (k : string) (v : Ayah) (m : JsMap.t) :
  NoDup (JsMap.keys m) -> NoDup (JsMap.keys (JsMap.set k v m)).
Proof.
  intros Hn. destruct (keys_set_cases k v m) as [->|[Hk ->]]; [assumption|].
  apply (Permutation_NoDup (Permutation_cons_append (JsMap.keys m) k)).
  now constructor.
Qed.

Lemma get_None (k : string) (m : JsMap.t) :
  JsMap.get k m = None <-> ~ In k (JsMap.keys m).
Proof.
  induction m as [|[k0 v0] m IH]; simpl; [tauto|].
  destruct (String.eqb_spec k0 k) as [->|Hne].
  - split; [discriminate | tauto].
  - rewrite IH. tauto.
Qed.

Lemma get_Some_In (k : string) (v : Ayah) (m : JsMap.t) :
  JsMap.get k m = Some v -> In (k, v) m.
Proof.
  induction m as [|[k0 v0] m IH]; simpl; [discriminate|].
  destruct (String.eqb_spec k0 k) as [->|Hne].
  - intros [= ->]. now left.
  - auto.
Qed.

Lemma In_get_Some (k : string) (v : Ayah) (m : JsMap.t) :
  NoDup (JsMap.keys m) -> In (k, v) m -> JsMap.get k m = Some v.
Proof.
  induction m as [|[k0 v0] m IH]; simpl; [tauto|].
  intros Hn Hin. apply NoDup_cons_iff in Hn. destruct Hn as [Hk Hn].
  destruct (String.eqb_spec k0 k) as [->|Hne].
  - destruct Hin as [[= ->]|Hin]; [reflexivity|].
    destruct Hk. change k with (fst (k, v)). now apply in_map.
  - destruct Hin as [[= -> ->]|Hin]; [congruence | auto].
Qed.

(** A map is determined by the order of its keys and by its lookups. *)
Lemma map_ext (m1 m2 : JsMap.t) :
  NoDup (JsMap.keys m1) -> JsMap.keys m1 = JsMap.keys m2 ->
  (forall k, JsMap.get k m1 = JsMap.get k m2) -> m1 = m2.
Proof.
  revert m2. induction m1 as [|[k1 v1] m1 IH]; intros [|[k2 v2] m2];
    simpl; try discriminate; [reflexivity|].
  intros Hn [= <- Hk] Hget. apply NoDup_cons_iff in Hn. destruct Hn as [Hk1 Hn].
  pose proof (Hget k1) as H1. rewrite String.eqb_refl in H1.
  injection H1 as <-. f_equal. apply IH; [assumption..|].
  intros k. specialize (Hget k).
  destruct (String.eqb_spec k1 k) as [E|Hne]; [subst k | assumption].
  transitivity (@None Ayah); [|symmetry]; apply get_None; congruence.
Qed.

End MapFacts.

(** ** Filling the pool *)

Section Pool.

Lemma find_app_first {A : Type} (f : A -> bool) (l1 l2 : list A) :
  find f (l1 ++ l2)
  = match find f l1 with Some x => Some x | None => find f l2 end.
Proof.
  induction l1 as [|a l1 IH]; simpl; [reflexivity|].
  destruct (f a); [reflexivity | exact IH].
Qed.

Lemma last_write_cons (k : string) (a : Ayah) (l : list Ayah) :
  last_write k (a :: l)
  = match last_write k l with
    | Some x => Some x
    | None => if (verse_key a =? k)%string then Some a else None
    end.
Proof. unfold last_write. simpl. now rewrite find_app_first. Qed.

Lemma last_write_Some (k : string) (l : list Ayah) (x : Ayah) :
  last_write k l = Some x -> In x l /\ verse_key x = k.
Proof.
  unfold last_write. intros H. apply find_some in H. destruct H as [Hin Hk].
  apply in_rev in Hin. cbv beta in Hk. to_prop. auto.
Qed.

Lemma last_write_None (k : string) (l : list Ayah) :
  last_write k l = None -> forall a, In a l -> verse_key a <> k.
Proof.
  unfold last_write. intros H a Hin. apply in_rev in Hin.
  pose proof (find_none _ _ H _ Hin) as Hk. cbv beta in Hk.
  to_prop. assumption.
Qed.

Lemma add_all_app (m : JsMap.t) (l1 l2 : list Ayah) :
  add_all m (l1 ++ l2) = add_all (add_all m l1) l2.
Proof. apply fold_left_app. Qed.

Lemma fill_pool_writes (ayahs : list Ayah) (ranges : list TestPoolRange)
    (m : JsMap.t) :
  fill_pool ayahs ranges m = add_all m (writes ayahs ranges).
Proof.
  unfold fill_pool, writes. revert m.
  induction ranges as [|r ranges IH]; intros m; simpl; [reflexivity|].
  now rewrite IH, add_all_app.
Qed.

Lemma buildTestPool_writes (ayahs : list Ayah) (ranges : list TestPoolRange) :
  buildTestPool ayahs ranges
  = sort_by_order (JsMap.values (add_all JsMap.empty (writes ayahs ranges))).
Proof. unfold buildTestPool. now rewrite fill_pool_writes. Qed.

Lemma add_all_keys_NoDup (l : list Ayah) (m : JsMap.t) :
  NoDup (JsMap.keys m) -> NoDup (JsMap.keys (add_all m l)).
Proof.
  revert m. induction l as [|a l IH]; intros m Hn; simpl; [assumption|].
  apply IH. now apply keys_set_NoDup.
Qed.

Lemma add_all_keys_In (l : list Ayah) (m : JsMap.t) (k : string) :
  In k (JsMap.keys (add_all m l))
  <-> In k (JsMap.keys m) \/ exists a, In a l /\ verse_key a = k.
Proof.
  revert m. induction l as [|a l IH]; intros m; simpl.
  - split; [tauto | intros [|(a & [] & _)]; assumption].
  - rewrite IH, keys_set_In. split.
    + intros [[->|]|(b & Hb & E)]; eauto.
    + intros [|(b & [<-|Hb] & E)]; eauto.
Qed.

Lemma add_all_keys_stable (l : list Ayah) (m : JsMap.t) :
  (forall a, In a l -> In (verse_key a) (JsMap.keys m)) ->
  JsMap.keys (add_all m l) = JsMap.keys m.
Proof.
  revert m. induction l as [|a l IH]; intros m Hin; simpl; [reflexivity|].
  assert (E : JsMap.keys (JsMap.set (verse_key a) a m) = JsMap.keys m).
  { apply keys_set_present, Hin. now left. }
  rewrite IH; [exact E|]. intros b Hb. rewrite E. apply Hin. now right.
Qed.

(** Last write wins. *)
Lemma get_add_all (k : string) (l : list Ayah) (m : JsMap.t) :
  JsMap.get k (add_all m l)
  = match last_write k l with Some a => Some a | None => JsMap.get k m end.
Proof.
  revert m. induction l as [|a l IH]; intros m; simpl; [reflexivity|].
  rewrite IH, last_write_cons, get_set.
  destruct (last_write k l); [reflexivity|].
  destruct (verse_key a =? k)%string; reflexivity.
Qed.

(** Writing the same sequence a second time leaves the map as it is. *)
Lemma add_all_twice (l : list Ayah) (m : JsMap.t) :
  NoDup (JsMap.keys m) -> add_all (add_all m l) l = add_all m l.
Proof.
  intros Hn. apply map_ext.
  - now repeat apply add_all_keys_NoDup.
  - apply add_all_keys_stable. intros a Ha.
    apply add_all_keys_In. eauto.
  - intros k. rewrite !get_add_all. destruct (last_write k l); reflexivity.
Qed.

Lemma set_In (k : string) (v : Ayah) (m : JsMap.t) (k' : string) (v' : Ayah) :
  In (k', v') (JsMap.set k v m) -> (k' = k /\ v' = v) \/ In (k', v') m.
Proof.
  induction m as [|[k0 v0] m IH]; simpl.
  - intros [[= <- <-]|[]]. auto.
  - destruct (String.eqb_spec k0 k) as [->|Hne]; simpl.
    + intros [[= <- <-]|]; auto.
    + intros [|H]; [auto|]. apply IH in H. tauto.
Qed.

Lemma add_all_In (l : list Ayah) (m : JsMap.t) (k : string) (v : Ayah) :
  In (k, v) (add_all m l) -> In (k, v) m \/ (In v l /\ k = verse_key v).
Proof.
  revert m. induction l as [|a l IH]; intros m; simpl; [auto|].
  intros H. apply IH in H. destruct H as [H|[H E]]; [|auto].
  apply set_In in H. destruct H as [[-> ->]|H]; auto.
Qed.

Lemma add_all_keyed (l : list Ayah) (m : JsMap.t) :
  keyed m -> keyed (add_all m l).
Proof.
  intros Hm k v H. apply add_all_In in H. destruct H as [H|[_ H]]; auto.
Qed.

Lemma keyed_values (m : JsMap.t) :
  keyed m -> map verse_key (JsMap.values m) = JsMap.keys m.
Proof.
  unfold JsMap.values, JsMap.keys. induction m as [|[k v] m IH]; intros Hm;
    simpl; [reflexivity|].
  rewrite IH.
  - f_equal. symmetry. apply Hm. now left.
  - intros k' v' H. apply Hm. now right.
Qed.

Lemma values_In (m : JsMap.t) (v : Ayah) :
  In v (JsMap.values m) <-> exists k, In (k, v) m.
Proof.
  unfold JsMap.values. rewrite in_map_iff. split.
  - intros ([k v'] & E & H). simpl in E. subst. eauto.
  - intros (k & H). exists (k, v). auto.
Qed.

(** Every record of the pool was written to it. *)
Lemma pool_values_written (l : list Ayah) (v : Ayah) :
  In v (JsMap.values (add_all JsMap.empty l)) -> In v l.
Proof.
  rewrite values_In. intros (k & H). apply add_all_In in H.
  destruct H as [[]|[H _]]. assumption.
Qed.

(** When a key names one record, every record written is in the pool. *)
Lemma pool_values_complete (l : list Ayah) (v : Ayah) :
  (forall a b, In a l -> In b l -> verse_key a = verse_key b -> a = b) ->
  In v l -> In v (JsMap.values (add_all JsMap.empty l)).
Proof.
  intros Hkey Hv. apply values_In. exists (verse_key v).
  apply get_Some_In. rewrite get_add_all.
  destruct (last_write (verse_key v) l) as [x|] eqn:E.
  - apply last_write_Some in E. destruct E as [Hx Ek].
    now rewrite (Hkey x v Hx Hv Ek).
  - destruct (last_write_None _ _ E v Hv). reflexivity.
Qed.

Lemma pool_keys_NoDup (l : list Ayah) :
  NoDup (map verse_key (JsMap.values (add_all JsMap.empty l))).
Proof.
  rewrite keyed_values.
  - apply add_all_keys_NoDup. constructor.
  - apply add_all_keyed. intros k v [].
Qed.

End Pool.

(** ** Range resolvers *)

Section Resolvers.

Lemma find_is_None {A : Type} (f : A -> bool) (l : list A) :
  find f l = None <-> forall a, In a l -> f a = false.
Proof.
  split; [apply find_none|].
  induction l as [|x l IH]; simpl; intros H; [reflexivity|].
  rewrite (H x) by now left. apply IH. intros a Ha. apply H. now right.
Qed.

Lemma find_is_Some {A : Type} (f : A -> bool) (l : list A) (x : A) :
  In x l -> f x = true -> exists y, find f l = Some y.
Proof.
  intros Hin Hx. destruct (find f l) as [y|] eqn:E; [eauto|].
  rewrite (find_none _ _ E _ Hin) in Hx. discriminate.
Qed.

Lemma filter_range_In (f : Ayah -> Z) (lo hi : Z) (l : list Ayah) (a : Ayah) :
  In a (filter (fun a => (f a >=? lo) && (f a <=? hi)) l)
  <-> In a l /\ lo <= f a <= hi.
Proof. now rewrite filter_In, in_range_iff. Qed.

Lemma filter_range_leb (f : Ayah -> Z) (lo hi : Z) (l : list Ayah) :
  filter (fun a => (f a >=? lo) && (f a <=? hi)) l
  = filter (fun a => (lo <=? f a) && (f a <=? hi)) l.
Proof. apply filter_ext. intros a. now rewrite Z.geb_leb. Qed.

Lemma filter_is_nil {A : Type} (f : A -> bool) (l : list A) :
  filter f l = [] <-> forall a, In a l -> f a = false.
Proof.
  induction l as [|x l IH]; simpl; [tauto|].
  destruct (f x) eqn:E.
  - split; [discriminate|]. intros H. rewrite (H x) in E by now left.
    discriminate.
  - rewrite IH. split; [intros H a [<-|Ha]; auto | intros H a Ha; auto].
Qed.

Lemma length_zero_iff {A : Type} (l : list A) :
  (Js.length l =? 0) = true <-> l = [].
Proof.
  unfold Js.length. rewrite Z.eqb_eq. destruct l; simpl; split;
    intros; try reflexivity; try discriminate; lia.
Qed.

Lemma get_ayahs_for_ruku_In (ayahs : list Ayah) (juz ruku : Z) (a : Ayah) :
  In a (get_ayahs_for_ruku ayahs juz ruku)
  <-> In a ayahs /\ juz_number a = juz /\ ruku_in_juz a = ruku.
Proof.
  unfold get_ayahs_for_ruku.
  now rewrite filter_In, andb_true_iff, !Z.eqb_eq.
Qed.

(** The two indexed reads behind the length guard never give [undefined]. *)
Lemma between_rukus_reads_defined (S E : list Ayah) :
  (Js.length S =? 0) || (Js.length E =? 0) = false ->
  exists first last,
    Js.index S 0 = Some first /\ Js.index E (Js.length E - 1) = Some last.
Proof.
  intros H. apply orb_false_iff in H. destruct H as [HS HE].
  destruct S as [|first S]; [discriminate|].
  destruct (snoc_cases E) as [->|(E' & last & ->)]; [discriminate|].
  exists first, last. split; [reflexivity | apply index_last].
Qed.

Lemma verse_keys_incl (ayahs : list Ayah) (startKey endKey : string) :
  incl (get_ayahs_between_verse_keys ayahs startKey endKey) ayahs.
Proof.
  unfold get_ayahs_between_verse_keys.
  destruct (find _ ayahs) as [s|]; [|intros a []].
  destruct (find _ ayahs) as [e|]; [|intros a []].
  destruct (_ >? _); [intros a [] | apply incl_filter].
Qed.

Lemma rukus_incl (ayahs : list Ayah) (sj sr ej er : Z) :
  incl (get_ayahs_between_rukus ayahs sj sr ej er) ayahs.
Proof.
  unfold get_ayahs_between_rukus.
  destruct (_ || _); [intros a []|].
  destruct (Js.index _ 0) as [s|]; [|intros a []].
  destruct (Js.index _ _) as [e|]; [|intros a []].
  destruct (_ >? _); [intros a [] | apply incl_filter].
Qed.

Lemma juz_range_incl (ayahs : list Ayah) (s e : Z) :
  incl (get_ayahs_for_juz_range ayahs s e) ayahs.
Proof.
  unfold get_ayahs_for_juz_range.
  destruct (_ >? _); [intros a [] | apply incl_filter].
Qed.

Lemma resolve_range_incl (ayahs : list Ayah) (r : TestPoolRange) :
  incl (resolve_range ayahs r) ayahs.
Proof.
  destruct r; simpl;
    [apply verse_keys_incl | apply rukus_incl | apply juz_range_incl].
Qed.

Lemma writes_incl (ayahs : list Ayah) (ranges : list TestPoolRange) :
  incl (writes ayahs ranges) ayahs.
Proof.
  unfold writes. intros a Ha. apply in_flat_map in Ha.
  destruct Ha as (r & _ & Ha). now apply (resolve_range_incl ayahs r).
Qed.

End Resolvers.

(** * Claims on the range resolvers *)

(** C9. For every index and all integers [startJuz], [endJuz],
    [get_ayahs_for_juz_range] returns the empty array when
    [startJuz > endJuz], and otherwise exactly the verses, in index order,
    whose [juz_number] lies in the inclusive range [startJuz..endJuz]. *)
Theorem get_ayahs_for_juz_range_spec :
  forall (ayahs : list Ayah) (startJuz endJuz : Z),
    (startJuz > endJuz -> get_ayahs_for_juz_range ayahs startJuz endJuz = [])
    /\ (startJuz <= endJuz ->
        get_ayahs_for_juz_range ayahs startJuz endJuz
        = filter (fun a => (startJuz <=? juz_number a)
                           && (juz_number a <=? endJuz)) ayahs)
    /\ (forall a, In a (get_ayahs_for_juz_range ayahs startJuz endJuz)
                  <-> In a ayahs /\ startJuz <= juz_number a <= endJuz).
Proof.
  intros ayahs s e. unfold get_ayahs_for_juz_range.
  destruct (s >? e) eqn:G; to_prop.
  - split; [reflexivity|]. split; [lia|].
    intros a. simpl. split; [tauto | lia].
  - split; [lia|]. split; [intros _; apply filter_range_leb|].
    intros a. apply filter_range_In.
Qed.

(** C5. In an index listed by ascending [global_order],
    [get_ayahs_between_verse_keys] returns the empty array when a key
    matches no verse; otherwise, with [s] and [e] the verses the two keys
    locate, it returns the empty array when [s] comes after [e] in
    [global_order], and else exactly the verses whose [global_order] lies in
    the inclusive range from [s] to [e], in ascending [global_order]. *)
Theorem get_ayahs_between_verse_keys_spec :
  forall (ayahs : list Ayah) (startKey endKey : string),
    ascending ayahs ->
    let result := get_ayahs_between_verse_keys ayahs startKey endKey in
    ((forall a, In a ayahs -> verse_key a <> startKey)
     \/ (forall a, In a ayahs -> verse_key a <> endKey) -> result = [])
    /\ ((exists a, In a ayahs /\ verse_key a = startKey) ->
        (exists a, In a ayahs /\ verse_key a = endKey) ->
        exists s e,
          find (fun a => (verse_key a =? startKey)%string) ayahs = Some s
          /\ find (fun a => (verse_key a =? endKey)%string) ayahs = Some e
          /\ In s ayahs /\ verse_key s = startKey
          /\ In e ayahs /\ verse_key e = endKey
          /\ (global_order s > global_order e -> result = [])
          /\ (global_order s <= global_order e ->
              result = filter (fun a => (global_order s <=? global_order a)
                                        && (global_order a <=? global_order e))
                              ayahs
              /\ (forall a, In a result
                            <-> In a ayahs
                                /\ global_order s <= global_order a
                                   <= global_order e)
              /\ ascending result)).
Proof.
  intros ayahs startKey endKey Hasc result. subst result.
  unfold get_ayahs_between_verse_keys. split.
  - intros [H|H].
    + replace (find _ ayahs) with (@None Ayah); [reflexivity|].
      symmetry. apply find_is_None. intros a Ha. apply String.eqb_neq. auto.
    + destruct (find _ ayahs) as [s|]; [|reflexivity].
      replace (find _ ayahs) with (@None Ayah); [reflexivity|].
      symmetry. apply find_is_None. intros a Ha. apply String.eqb_neq. auto.
  - intros (a & Ha & Ka) (b & Hb & Kb).
    destruct (find_is_Some (fun x => (verse_key x =? startKey)%string) ayahs a)
      as [s Es]; [assumption | now apply String.eqb_eq |].
    destruct (find_is_Some (fun x => (verse_key x =? endKey)%string) ayahs b)
      as [e Ee]; [assumption | now apply String.eqb_eq |].
    exists s, e. rewrite Es, Ee.
    apply find_some in Es, Ee. destruct Es as [Hs Ks], Ee as [He Ke].
    cbv beta in Ks, Ke. to_prop.
    repeat (split; [assumption || reflexivity|]).
    destruct (global_order s >? global_order e) eqn:G; to_prop; split;
      try (intros; reflexivity); try lia.
    intros _. split; [apply filter_range_leb|]. split.
    + intros x. apply filter_range_In.
    + now apply ascending_filter.
Qed.

Lemma get_ayahs_between_verse_keys_witness :
  ascending dense_index
  /\ get_ayahs_between_verse_keys dense_index "1:2" "2:1"
     = [ verse "1:2" 1 2 1 2 1 1 1 false false true;
         verse "2:1" 2 1 2 3 1 2 2 true true true ].
Proof.
  assert (H : ascending dense_index)
    by (repeat constructor; simpl; lia).
  split; [exact H|].
  destruct (get_ayahs_between_verse_keys_spec dense_index "1:2" "2:1" H)
    as [_ Hfound].
  destruct Hfound as (s & e & Es & Ee & _ & _ & _ & _ & _ & Hrange).
  - eexists. split; [right; left; reflexivity | reflexivity].
  - eexists. split; [right; right; left; reflexivity | reflexivity].
  - injection Es as <-. injection Ee as <-.
    destruct Hrange as [-> _]; [simpl; lia | reflexivity].
Defined.

(** C2. In an index listed by ascending [global_order],
    [get_ayahs_between_rukus] returns the empty array when the start pair or
    the end pair (juz, ruku in juz) matches no verse. Otherwise let [first]
    be the verse of least [global_order] among those matching the start pair
    and [last] the verse of greatest [global_order] among those matching the
    end pair: the result is empty when [first] comes after [last], and else
    it is exactly the verses of the index whose [global_order] lies in the
    inclusive range from [first] to [last], whatever sub-section they
    belong to. *)
Theorem get_ayahs_between_rukus_spec :
  forall (ayahs : list Ayah) (startJuz startRuku endJuz endRuku : Z),
    ascending ayahs ->
    let result :=
      get_ayahs_between_rukus ayahs startJuz startRuku endJuz endRuku in
    let at_start a := juz_number a = startJuz /\ ruku_in_juz a = startRuku in
    let at_end a := juz_number a = endJuz /\ ruku_in_juz a = endRuku in
    ((forall a, In a ayahs -> ~ at_start a)
     \/ (forall a, In a ayahs -> ~ at_end a) -> result = [])
    /\ ((exists a, In a ayahs /\ at_start a) ->
        (exists a, In a ayahs /\ at_end a) ->
        exists first last,
          In first ayahs /\ at_start first
          /\ (forall a, In a ayahs -> at_start a ->
                global_order first <= global_order a)
          /\ In last ayahs /\ at_end last
          /\ (forall a, In a ayahs -> at_end a ->
                global_order a <= global_order last)
          /\ (global_order first > global_order last -> result = [])
          /\ (global_order first <= global_order last ->
              result = filter (fun a =>
                                 (global_order first <=? global_order a)
                                 && (global_order a <=? global_order last))
                              ayahs
              /\ (forall a, In a result
                            <-> In a ayahs
                                /\ global_order first <= global_order a
                                   <= global_order last))).
Proof.
  intros ayahs sj sr ej er Hasc result at_start at_end.
  subst result at_start at_end. cbv beta.
  unfold get_ayahs_between_rukus.
  set (S := get_ayahs_for_ruku ayahs sj sr).
  set (E := get_ayahs_for_ruku ayahs ej er).
  assert (HS : ascending S) by now apply ascending_filter.
  assert (HE : ascending E) by now apply ascending_filter.
  split.
  - intros Hnone.
    replace ((Js.length S =? 0) || (Js.length E =? 0)) with true; [reflexivity|].
    symmetry. apply orb_true_iff.
    destruct Hnone as [H|H]; [left | right]; apply length_zero_iff.
    + destruct S as [|x S'] eqn:ES; [reflexivity|].
      assert (Hx : In x S) by (rewrite ES; now left).
      apply get_ayahs_for_ruku_In in Hx. destruct (H x); tauto.
    + destruct E as [|x E'] eqn:EE; [reflexivity|].
      assert (Hx : In x E) by (rewrite EE; now left).
      apply get_ayahs_for_ruku_In in Hx. destruct (H x); tauto.
  - intros (a & Ha & Hsa) (b & Hb & Heb).
    assert (HaS : In a S) by (apply get_ayahs_for_ruku_In; tauto).
    assert (HbE : In b E) by (apply get_ayahs_for_ruku_In; tauto).
    destruct ((Js.length S =? 0) || (Js.length E =? 0)) eqn:G.
    { apply orb_true_iff in G. destruct G as [G|G]; apply length_zero_iff in G;
        rewrite G in *; contradiction. }
    destruct (between_rukus_reads_defined S E G) as (first & last & Ef & El).
    rewrite Ef, El. exists first, last.
    destruct (ascending_head S first HS Ef) as [Hf Hmin].
    destruct (ascending_last E last HE El) as [Hl Hmax].
    apply get_ayahs_for_ruku_In in Hf, Hl.
    split; [tauto|]. split; [tauto|]. split.
    { intros x Hx Hxs. apply Hmin, get_ayahs_for_ruku_In. tauto. }
    split; [tauto|]. split; [tauto|]. split.
    { intros x Hx Hxe. apply Hmax, get_ayahs_for_ruku_In. tauto. }
    destruct (global_order first >? global_order last) eqn:C; to_prop; split;
      try (intros; reflexivity); try lia.
    intros _. split; [apply filter_range_leb|].
    intros x. apply filter_range_In.
Qed.

Lemma get_ayahs_between_rukus_witness :
  ascending dense_index
  /\ In (verse "1:2" 1 2 1 2 1 1 1 false false true)
        (get_ayahs_between_rukus dense_index 1 1 1 2).
Proof.
  assert (H : ascending dense_index)
    by (repeat constructor; simpl; lia).
  split; [exact H|].
  destruct (get_ayahs_between_rukus_spec dense_index 1 1 1 2 H) as [_ Hfound].
  destruct Hfound as (first & last & _ & _ & Hmin & _ & _ & Hmax & _ & Hrange).
  - eexists. split; [left; reflexivity | split; reflexivity].
  - eexists. split; [right; right; left; reflexivity | split; reflexivity].
  - assert (H1 : global_order first <= 1).
    { apply (Hmin (verse "1:1" 1 1 1 1 1 1 1 true true false));
        [left; reflexivity | split; reflexivity]. }
    assert (H3 : 3 <= global_order last).
    { apply (Hmax (verse "2:1" 2 1 2 3 1 2 2 true true true));
        [right; right; left; reflexivity | split; reflexivity]. }
    destruct Hrange as [_ Hin]; [lia|].
    apply Hin. split; [right; left; reflexivity | simpl; lia].
Defined.

(** * The pool builder on any array of verses *)

Ltac index_cases :=
  repeat match goal with
  | H : In _ (_ :: _) |- _ => destruct H as [<-|H]
  | H : In _ [] |- _ => destruct H
  end.

Lemma dense_index_key_identifies : key_identifies dense_index.
Proof.
  intros a b Ha Hb. unfold dense_index in *. index_cases;
    intros E; try reflexivity; discriminate E.
Qed.

Lemma dense_index_order_identifies : order_identifies dense_index.
Proof.
  intros a b Ha Hb. unfold dense_index in *. index_cases;
    intros E; try reflexivity; discriminate E.
Qed.

Lemma dense_index_gap_free : gap_free dense_index.
Proof.
  intros a b z Ha Hb Hz. unfold dense_index in *.
  assert (Hz' : z = 1 \/ z = 2 \/ z = 3)
    by (index_cases; simpl in Hz; lia).
  destruct Hz' as [-> | [-> | ->]].
  - exists (verse "1:1" 1 1 1 1 1 1 1 true true false). simpl. auto.
  - exists (verse "1:2" 1 2 1 2 1 1 1 false false true). simpl. auto.
  - exists (verse "2:1" 2 1 2 3 1 2 2 true true true). simpl. auto.
Qed.

Lemma dense_index_consecutive : consecutive dense_index.
Proof. simpl. repeat split. Qed.

Lemma pool_ascending (ayahs : list Ayah) (ranges : list TestPoolRange) :
  ascending (buildTestPool ayahs ranges).
Proof. apply sort_by_order_ascending. Qed.

Lemma pool_keys_distinct (ayahs : list Ayah) (ranges : list TestPoolRange) :
  NoDup (map verse_key (buildTestPool ayahs ranges)).
Proof.
  rewrite buildTestPool_writes.
  eapply Permutation_NoDup; [|apply pool_keys_NoDup].
  apply Permutation_map, sort_by_order_perm.
Qed.

Lemma pool_strictly_ascending (ayahs : list Ayah) (ranges : list TestPoolRange) :
  order_identifies ayahs -> strictly_ascending (buildTestPool ayahs ranges).
Proof.
  intros Hord. apply ascending_distinct_strict; [apply pool_ascending|].
  pose proof (pool_keys_distinct ayahs ranges) as Hk.
  assert (Hin : incl (buildTestPool ayahs ranges) ayahs).
  { intros a Ha. rewrite buildTestPool_writes in Ha.
    apply sort_by_order_In, pool_values_written in Ha.
    now apply (writes_incl ayahs ranges). }
  induction (buildTestPool ayahs ranges) as [|a l IH]; simpl; [constructor|].
  simpl in Hk. apply NoDup_cons_iff in Hk. destruct Hk as [Hka Hk].
  constructor.
  - intros Hga. apply in_map_iff in Hga. destruct Hga as (b & E & Hb).
    apply Hka. rewrite <- (Hord b a); [now apply in_map | | | assumption].
    + apply Hin. now right.
    + apply Hin. now left.
  - apply IH; [assumption|]. intros x Hx. apply Hin. now right.
Qed.

(** Membership in the pool when a key names one record. *)
Lemma pool_In (ayahs : list Ayah) (ranges : list TestPoolRange) (a : Ayah) :
  key_identifies ayahs ->
  In a (buildTestPool ayahs ranges) <-> In a (writes ayahs ranges).
Proof.
  intros Hkey. rewrite buildTestPool_writes, sort_by_order_In. split.
  - apply pool_values_written.
  - apply pool_values_complete. intros x y Hx Hy.
    apply Hkey; now apply (writes_incl ayahs ranges).
Qed.

Lemma pool_get (ayahs : list Ayah) (ranges : list TestPoolRange) (a : Ayah) :
  In a (buildTestPool ayahs ranges)
  <-> last_write (verse_key a) (writes ayahs ranges) = Some a.
Proof.
  rewrite buildTestPool_writes, sort_by_order_In, values_In.
  set (W := writes ayahs ranges).
  assert (Hn : NoDup (JsMap.keys (add_all JsMap.empty W)))
    by (apply add_all_keys_NoDup; constructor).
  assert (Hk : keyed (add_all JsMap.empty W))
    by (apply add_all_keyed; intros k v []).
  split.
  - intros (k & H). rewrite (Hk k a H) in H.
    apply In_get_Some in H; [|assumption]. rewrite get_add_all in H.
    destruct (last_write (verse_key a) W); [assumption | discriminate].
  - intros H. exists (verse_key a). apply get_Some_In.
    now rewrite get_add_all, H.
Qed.

Lemma last_write_app (k : string) (l1 l2 : list Ayah) :
  last_write k (l1 ++ l2)
  = match last_write k l2 with Some a => Some a | None => last_write k l1 end.
Proof. unfold last_write. now rewrite rev_app_distr, find_app_first. Qed.

Lemma writes_app (ayahs : list Ayah) (d1 d2 : list TestPoolRange) :
  writes ayahs (d1 ++ d2) = writes ayahs d1 ++ writes ayahs d2.
Proof. apply flat_map_app. Qed.

(** For any array of verses and every descriptor list, empty or not, the
    pool is sorted ascending by [global_order] and holds no two verses with
    the same [verse_key]; when verses with different keys have different
    [global_order], the order is strict; and the empty descriptor list
    gives the empty pool. *)
Lemma buildTestPool_sorted_dedup :
  forall (ayahs : list Ayah) (ranges : list TestPoolRange),
    ascending (buildTestPool ayahs ranges)
    /\ NoDup (map verse_key (buildTestPool ayahs ranges))
    /\ (order_identifies ayahs ->
        strictly_ascending (buildTestPool ayahs ranges))
    /\ buildTestPool ayahs [] = [].
Proof.
  intros ayahs ranges. split; [apply pool_ascending|].
  split; [apply pool_keys_distinct|].
  split; [apply pool_strictly_ascending | reflexivity].
Qed.

(** The two sample arrays that break the invariants of the data model. *)
Example tied_indexes_invalid :
  index_invariants tied_index = false
  /\ index_invariants rekeyed_index = false.
Proof. split; vm_compute; reflexivity. Qed.

(** The uniqueness of [global_order] is needed for the strict order: in an
    array where two verses with different keys share a [global_order], the
    pool of one juz range holds both. *)
Example buildTestPool_not_strict :
  buildTestPool tied_index [JuzRange 1 2] = tied_index
  /\ ~ strictly_ascending (buildTestPool tied_index [JuzRange 1 2]).
Proof.
  split; [reflexivity|].
  change (buildTestPool tied_index [JuzRange 1 2]) with tied_index.
  intros H. apply StronglySorted_inv in H. destruct H as [_ H].
  apply Forall_inv in H. simpl in H. lia.
Qed.

(** For any array of verses, listing the descriptors twice leaves the pool
    unchanged; and when a [verse_key] names one record and verses with
    different keys have different [global_order], the pool is the same for
    every reordering of the descriptor list. *)
Lemma buildTestPool_idempotent :
  forall (ayahs : list Ayah) (d1 : list TestPoolRange),
    buildTestPool ayahs (d1 ++ d1) = buildTestPool ayahs d1
    /\ (key_identifies ayahs -> order_identifies ayahs ->
        forall d1', Permutation d1 d1' ->
          buildTestPool ayahs d1' = buildTestPool ayahs d1).
Proof.
  intros ayahs d1. split.
  - rewrite !buildTestPool_writes, writes_app, add_all_app.
    rewrite add_all_twice; [reflexivity | constructor].
  - intros Hkey Hord d1' Hperm. apply strictly_ascending_ext.
    + now apply pool_strictly_ascending.
    + now apply pool_strictly_ascending.
    + intros a. rewrite !pool_In by assumption. unfold writes.
      rewrite !in_flat_map. split; intros (r & Hr & Ha); exists r;
        (split; [|assumption]).
      * apply (Permutation_in _ (Permutation_sym Hperm)), Hr.
      * apply (Permutation_in _ Hperm), Hr.
Qed.

(** The uniqueness of [global_order] is needed for the reordering: with two
    verses of equal [global_order] the stable sort keeps them in the order
    their keys entered the map, so swapping two descriptors swaps them. *)
Example buildTestPool_order_sensitive :
  Permutation [JuzRange 1 1; JuzRange 2 2] [JuzRange 2 2; JuzRange 1 1]
  /\ buildTestPool tied_index [JuzRange 2 2; JuzRange 1 1]
     <> buildTestPool tied_index [JuzRange 1 1; JuzRange 2 2].
Proof.
  split; [apply perm_swap|]. vm_compute. discriminate.
Qed.

(** For any array of verses the verses of the pool of [d1 ++ d2] are among
    those of the pools of [d1] and of [d2]; and when a [verse_key] names
    one record, every verse of either pool is in the pool of [d1 ++ d2], so
    the pool of [d1 ++ d2] is their union. *)
Lemma buildTestPool_union :
  forall (ayahs : list Ayah) (d1 d2 : list TestPoolRange),
    (forall a, In a (buildTestPool ayahs (d1 ++ d2)) ->
               In a (buildTestPool ayahs d1) \/ In a (buildTestPool ayahs d2))
    /\ (key_identifies ayahs ->
        forall a, In a (buildTestPool ayahs (d1 ++ d2))
                  <-> In a (buildTestPool ayahs d1)
                      \/ In a (buildTestPool ayahs d2)).
Proof.
  intros ayahs d1 d2. split.
  - intros a. rewrite !pool_get, writes_app, last_write_app.
    destruct (last_write (verse_key a) (writes ayahs d2)); auto.
  - intros Hkey a. rewrite !pool_In, writes_app by assumption.
    apply in_app_iff.
Qed.

(** The uniqueness of [verse_key] is needed for the union of records: when
    two records share a key, the later write replaces the earlier one. *)
Example buildTestPool_union_fails :
  In (verse "1:1" 1 1 1 1 1 1 1 true true true)
     (buildTestPool rekeyed_index [JuzRange 1 1])
  /\ ~ In (verse "1:1" 1 1 1 1 1 1 1 true true true)
          (buildTestPool rekeyed_index ([JuzRange 1 1] ++ [JuzRange 2 2])).
Proof.
  split.
  - vm_compute. left. reflexivity.
  - vm_compute. intros [H|[]]. discriminate H.
Qed.

(** C10. Every record of the pool is an element of the index, and so is
    every record each of the three resolvers returns: no record is built or
    changed on the way. *)
Theorem pool_incl_index :
  forall (ayahs : list Ayah) (ranges : list TestPoolRange),
    incl (buildTestPool ayahs ranges) ayahs
    /\ (forall startKey endKey,
          incl (get_ayahs_between_verse_keys ayahs startKey endKey) ayahs)
    /\ (forall startJuz startRuku endJuz endRuku,
          incl (get_ayahs_between_rukus ayahs startJuz startRuku endJuz endRuku)
               ayahs)
    /\ (forall startJuz endJuz,
          incl (get_ayahs_for_juz_range ayahs startJuz endJuz) ayahs).
Proof.
  intros ayahs ranges. split; [|split; [|split]].
  - intros a Ha. rewrite buildTestPool_writes in Ha.
    apply sort_by_order_In, pool_values_written in Ha.
    now apply (writes_incl ayahs ranges).
  - intros. apply verse_keys_incl.
  - intros. apply rukus_incl.
  - intros. apply juz_range_incl.
Qed.

(** * Claims on the navigation queries *)

(** ** Neighbours *)

Lemma getNextAyah_Some (ayahs : list Ayah) (v r : Ayah) :
  getNextAyah ayahs v = Some r ->
  In r ayahs /\ global_order r = global_order v + 1.
Proof.
  unfold getNextAyah. intros H. apply find_some in H.
  destruct H as [Hin H]. cbv beta in H. to_prop. auto.
Qed.

Lemma getPrevAyah_Some (ayahs : list Ayah) (v r : Ayah) :
  getPrevAyah ayahs v = Some r ->
  In r ayahs /\ global_order r = global_order v - 1.
Proof.
  unfold getPrevAyah. intros H. apply find_some in H.
  destruct H as [Hin H]. cbv beta in H. to_prop. auto.
Qed.

Lemma getNextAyah_None (ayahs : list Ayah) (v : Ayah) :
  getNextAyah ayahs v = None
  <-> forall a, In a ayahs -> global_order a <> global_order v + 1.
Proof.
  unfold getNextAyah. rewrite find_is_None.
  split; intros H a Ha; specialize (H a Ha); cbv beta in *;
    [now apply Z.eqb_neq | now apply Z.eqb_neq].
Qed.

Lemma getPrevAyah_None (ayahs : list Ayah) (v : Ayah) :
  getPrevAyah ayahs v = None
  <-> forall a, In a ayahs -> global_order a <> global_order v - 1.
Proof.
  unfold getPrevAyah. rewrite find_is_None.
  split; intros H a Ha; specialize (H a Ha); cbv beta in *;
    [now apply Z.eqb_neq | now apply Z.eqb_neq].
Qed.

(** C6, as amended. For every index and every verse [v] in it whose
    [global_order] is a safe integer, [getNextAyah] returns a verse of the
    index whose [global_order] is that of [v] plus one, or none when no
    verse has it; it returns none when [v] is the last verse; and when the
    [global_order] values of the index leave no gap, it returns none only
    when [v] is the last verse. Symmetrically for [getPrevAyah], minus one
    and the first verse. *)
Theorem getNextAyah_getPrevAyah_spec :
  forall (ayahs : list Ayah) (v : Ayah),
    In v ayahs ->
    Js.is_safe (global_order v) ->
    (forall r, getNextAyah ayahs v = Some r ->
               In r ayahs /\ global_order r = global_order v + 1)
    /\ (getNextAyah ayahs v = None
        <-> forall a, In a ayahs -> global_order a <> global_order v + 1)
    /\ (is_last ayahs v -> getNextAyah ayahs v = None)
    /\ (forall r, getPrevAyah ayahs v = Some r ->
                  In r ayahs /\ global_order r = global_order v - 1)
    /\ (getPrevAyah ayahs v = None
        <-> forall a, In a ayahs -> global_order a <> global_order v - 1)
    /\ (is_first ayahs v -> getPrevAyah ayahs v = None)
    /\ (gap_free ayahs ->
        (getNextAyah ayahs v = None <-> is_last ayahs v)
        /\ (getPrevAyah ayahs v = None <-> is_first ayahs v)).
Proof.
  intros ayahs v Hv _.
  assert (Hlast : is_last ayahs v -> getNextAyah ayahs v = None).
  { intros [_ Hmax]. apply getNextAyah_None. intros a Ha.
    specialize (Hmax a Ha). lia. }
  assert (Hfirst : is_first ayahs v -> getPrevAyah ayahs v = None).
  { intros [_ Hmin]. apply getPrevAyah_None. intros a Ha.
    specialize (Hmin a Ha). lia. }
  split; [apply getNextAyah_Some|]. split; [apply getNextAyah_None|].
  split; [exact Hlast|].
  split; [apply getPrevAyah_Some|]. split; [apply getPrevAyah_None|].
  split; [exact Hfirst|].
  intros Hgap. split; (split; [|assumption]).
  - intros Hnone. split; [assumption|]. intros a Ha.
    destruct (Z.le_gt_cases (global_order a) (global_order v)) as [|Hlt];
      [assumption|].
    destruct (Hgap v a (global_order v + 1) Hv Ha) as (c & Hc & Ec); [lia|].
    destruct (proj1 (getNextAyah_None ayahs v) Hnone c Hc Ec).
  - intros Hnone. split; [assumption|]. intros a Ha.
    destruct (Z.le_gt_cases (global_order v) (global_order a)) as [|Hlt];
      [assumption|].
    destruct (Hgap a v (global_order v - 1) Ha Hv) as (c & Hc & Ec); [lia|].
    destruct (proj1 (getPrevAyah_None ayahs v) Hnone c Hc Ec).
Qed.

Lemma getNextAyah_getPrevAyah_witness :
  (In (verse "2:1" 2 1 2 3 1 2 2 true true true) dense_index
   /\ Js.is_safe (global_order (verse "2:1" 2 1 2 3 1 2 2 true true true))
   /\ gap_free dense_index)
  /\ is_last dense_index (verse "2:1" 2 1 2 3 1 2 2 true true true).
Proof.
  assert (Hv : In (verse "2:1" 2 1 2 3 1 2 2 true true true) dense_index)
    by (right; right; left; reflexivity).
  assert (Hsafe : Js.is_safe
                    (global_order (verse "2:1" 2 1 2 3 1 2 2 true true true)))
    by (unfold Js.is_safe; simpl; lia).
  split; [split; [exact Hv | split; [exact Hsafe | exact dense_index_gap_free]]|].
  destruct (getNextAyah_getPrevAyah_spec dense_index _ Hv Hsafe)
    as (_ & _ & _ & _ & _ & _ & Hgap).
  destruct (Hgap dense_index_gap_free) as [Hnext _].
  apply Hnext. reflexivity.
Defined.

(** C6 as stated fails: where two consecutive verses are numbered 2 and 4,
    [getNextAyah] of the first is none although it is not the last verse,
    and [getPrevAyah] of the second is none although it is not the first. *)
Lemma getNextAyah_none_at_gap :
  In (verse "1:2" 1 2 1 2 1 1 1 false false true) gapped_index
  /\ getNextAyah gapped_index (verse "1:2" 1 2 1 2 1 1 1 false false true)
     = None
  /\ ~ is_last gapped_index (verse "1:2" 1 2 1 2 1 1 1 false false true)
  /\ In (verse "2:1" 2 1 2 4 1 2 2 true true true) gapped_index
  /\ getPrevAyah gapped_index (verse "2:1" 2 1 2 4 1 2 2 true true true)
     = None
  /\ ~ is_first gapped_index (verse "2:1" 2 1 2 4 1 2 2 true true true).
Proof.
  split; [right; left; reflexivity|]. split; [reflexivity|]. split.
  { intros [_ H].
    assert (H4 : In (verse "2:1" 2 1 2 4 1 2 2 true true true) gapped_index)
      by (right; right; left; reflexivity).
    apply H in H4. simpl in H4. lia. }
  split; [right; right; left; reflexivity|]. split; [reflexivity|].
  intros [_ H].
  assert (H1 : In (verse "1:1" 1 1 1 1 1 1 1 true true false) gapped_index)
    by (left; reflexivity).
  apply H in H1. simpl in H1. lia.
Qed.

(** ** Positions in an ascending index *)

Section Positions.

Lemma find_split {A : Type} (f : A -> bool) (l : list A) (x : A) :
  find f l = Some x ->
  exists l1 l2, l = l1 ++ x :: l2 /\ f x = true
                /\ forall y, In y l1 -> f y = false.
Proof.
  induction l as [|a l IH]; simpl; [discriminate|].
  destruct (f a) eqn:E.
  - intros [= ->]. exists [], l. repeat split; [assumption | intros y []].
  - intros H. destruct (IH H) as (l1 & l2 & -> & Hx & Hl1).
    exists (a :: l1), l2. repeat split; [assumption|].
    intros y [<-|Hy]; auto.
Qed.

Lemma sorted_app_inv {A : Type} (R : A -> A -> Prop) (l1 l2 : list A) :
  StronglySorted R (l1 ++ l2) ->
  StronglySorted R l1 /\ StronglySorted R l2
  /\ forall x y, In x l1 -> In y l2 -> R x y.
Proof.
  induction l1 as [|a l1 IH]; simpl; intros H.
  - repeat split; [constructor | assumption | intros x y []].
  - apply StronglySorted_inv in H. destruct H as [H Ha].
    destruct (IH H) as (H1 & H2 & H12). rewrite Forall_forall in Ha.
    repeat split; [|assumption|].
    + constructor; [assumption|]. apply Forall_forall. intros x Hx.
      apply Ha, in_or_app. now left.
    + intros x y [<-|Hx] Hy; [|now apply H12].
      apply Ha, in_or_app. now right.
Qed.

(** Around a position: what is listed before [x] and what after. *)
Lemma sorted_around {A : Type} (R : A -> A -> Prop) (l1 l2 : list A) (x : A) :
  StronglySorted R (l1 ++ x :: l2) ->
  (forall y, In y l1 -> R y x) /\ (forall y, In y l2 -> R x y).
Proof.
  intros H. apply sorted_app_inv in H. destruct H as (_ & H2 & H12).
  apply StronglySorted_inv in H2. destruct H2 as [_ Hx].
  rewrite Forall_forall in Hx. split; [|assumption].
  intros y Hy. apply H12; [assumption | now left].
Qed.

Lemma strictly_ascending_inj (l : list Ayah) (a b : Ayah) :
  strictly_ascending l -> In a l -> In b l ->
  global_order a = global_order b -> a = b.
Proof.
  intros Hs Ha Hb E. destruct (in_split _ _ Ha) as (l1 & l2 & ->).
  destruct (sorted_around _ _ _ _ Hs) as [Hbefore Hafter].
  apply in_app_or in Hb. destruct Hb as [Hb|[Hb|Hb]]; [|auto|].
  - specialize (Hbefore b Hb). simpl in Hbefore. lia.
  - specialize (Hafter b Hb). simpl in Hafter. lia.
Qed.

(** In a strictly ascending index a verse is found by its number. *)
Lemma find_by_order (l : list Ayah) (p : Ayah) (z : Z) :
  strictly_ascending l -> In p l -> global_order p = z ->
  find (fun a => global_order a =? z) l = Some p.
Proof.
  intros Hs Hp Ez.
  destruct (find_is_Some (fun a => global_order a =? z) l p Hp) as [y Ey].
  { now apply Z.eqb_eq. }
  rewrite Ey. f_equal. apply find_some in Ey. destruct Ey as [Hy Ey].
  cbv beta in Ey. to_prop. apply (strictly_ascending_inj l); congruence.
Qed.

(** The verse listed just before [n] in a consecutive index is the one
    [getPrevAyah] returns. *)
Lemma getPrevAyah_listed_before (l1 l2 : list Ayah) (p n : Ayah) :
  consecutive (l1 ++ p :: n :: l2) ->
  getPrevAyah (l1 ++ p :: n :: l2) n = Some p
  /\ global_order p = global_order n - 1.
Proof.
  intros Hc. pose proof (consecutive_split _ _ _ _ Hc) as E.
  split; [|lia]. apply find_by_order.
  - now apply consecutive_strictly_ascending.
  - apply in_or_app. right. now left.
  - lia.
Qed.

End Positions.

(** ** Nearest sub-section boundary *)

Section Boundary.

Variable ayahs : list Ayah.
Variable v : Ayah.
Hypothesis v_in_index : In v ayahs.

Lemma index_last_defined :
  exists r, Js.index ayahs (Js.length ayahs - 1) = Some r /\ In r ayahs.
Proof.
  destruct (snoc_cases ayahs) as [E|(l & x & E)].
  - rewrite E in v_in_index. destruct v_in_index.
  - exists x. rewrite E. split; [apply index_last|].
    apply in_or_app. right. now left.
Qed.

Lemma index_first_defined :
  exists r, Js.index ayahs 0 = Some r /\ In r ayahs.
Proof.
  rewrite index_zero. destruct ayahs as [|x l]; [destruct v_in_index|].
  exists x. split; [reflexivity | now left].
Qed.

Lemma boundary_total (d : Direction) :
  exists r, getNearestRukuBoundary ayahs v d = Some r /\ In r ayahs.
Proof.
  destruct d; simpl.
  - destruct (find _ ayahs) as [n|] eqn:En; [|apply index_last_defined].
    eexists. split; [reflexivity|].
    destruct (getPrevAyah ayahs n) as [p|] eqn:Ep; simpl; [|assumption].
    now apply getPrevAyah_Some in Ep.
  - destruct (find _ (rev ayahs)) as [p|] eqn:Ep; [|apply index_first_defined].
    exists p. split; [reflexivity|].
    apply find_some in Ep. now apply in_rev.
Qed.

Section ListedAscending.

Hypothesis index_ascending : ascending ayahs.

Lemma boundary_forward_none :
  find (fun a => (global_order a >? global_order v) && is_ruku_start a) ayahs
  = None ->
  (forall m, In m ayahs -> is_ruku_start m = true ->
             global_order m <= global_order v)
  /\ exists r, Js.index ayahs (Js.length ayahs - 1) = Some r
               /\ is_last ayahs r.
Proof.
  intros En. split.
  - intros m Hm Hstart. pose proof (find_none _ _ En m Hm) as H.
    cbv beta in H. rewrite Hstart, andb_true_r in H. to_prop. assumption.
  - destruct index_last_defined as (r & Er & _). exists r.
    split; [assumption|]. apply ascending_last; assumption.
Qed.

Lemma boundary_forward_start (n : Ayah) :
  find (fun a => (global_order a >? global_order v) && is_ruku_start a) ayahs
  = Some n ->
  next_start ayahs v n.
Proof.
  intros En. pose proof (find_some _ _ En) as [Hn Hfn]. cbv beta in Hfn.
  destruct (find_split _ _ _ En) as (l1 & l2 & E & _ & Hl1).
  pose proof index_ascending as Hs. rewrite E in Hs.
  destruct (sorted_around _ _ _ _ Hs) as [_ Hafter].
  to_prop. split; [assumption|]. split; [assumption|]. split; [lia|].
  intros m Hm Hstart Hgt. rewrite E in Hm.
  apply in_app_or in Hm. destruct Hm as [Hm|[<-|Hm]].
  - specialize (Hl1 m Hm). cbv beta in Hl1.
    rewrite Hstart, andb_true_r in Hl1. to_prop. lia.
  - lia.
  - specialize (Hafter m Hm). simpl in Hafter. lia.
Qed.

Lemma boundary_backward_found (p : Ayah) :
  find (fun a => (global_order a <? global_order v) && is_ruku_start a)
       (rev ayahs) = Some p ->
  prev_start ayahs v p.
Proof.
  intros Ep. pose proof (find_some _ _ Ep) as [Hp Hfp]. cbv beta in Hfp.
  apply in_rev in Hp.
  destruct (find_split _ _ _ Ep) as (l1 & l2 & E & _ & Hl1).
  assert (E' : ayahs = rev l2 ++ p :: rev l1).
  { rewrite <- (rev_involutive ayahs), E, rev_app_distr. simpl.
    now rewrite <- app_assoc. }
  pose proof index_ascending as Hs. rewrite E' in Hs.
  destruct (sorted_around _ _ _ _ Hs) as [Hbefore _].
  to_prop. split; [assumption|]. split; [assumption|]. split; [assumption|].
  intros m Hm Hstart Hlt. rewrite E' in Hm.
  apply in_app_or in Hm. destruct Hm as [Hm|[<-|Hm]].
  - specialize (Hbefore m Hm). simpl in Hbefore. lia.
  - lia.
  - apply in_rev in Hm. specialize (Hl1 m Hm). cbv beta in Hl1.
    rewrite Hstart, andb_true_r in Hl1. to_prop. lia.
Qed.

Lemma boundary_backward_none :
  find (fun a => (global_order a <? global_order v) && is_ruku_start a)
       (rev ayahs) = None ->
  (forall m, In m ayahs -> is_ruku_start m = true ->
             global_order v <= global_order m)
  /\ exists r, Js.index ayahs 0 = Some r /\ is_first ayahs r.
Proof.
  intros En. split.
  - intros m Hm Hstart. apply in_rev in Hm.
    pose proof (find_none _ _ En m Hm) as H.
    cbv beta in H. rewrite Hstart, andb_true_r in H. to_prop. assumption.
  - destruct index_first_defined as (r & Er & _). exists r.
    split; [assumption|]. apply ascending_head; assumption.
Qed.

End ListedAscending.

Section ListedConsecutive.

Hypothesis index_consecutive : consecutive ayahs.

Lemma boundary_forward_found (n : Ayah) :
  find (fun a => (global_order a >? global_order v) && is_ruku_start a) ayahs
  = Some n ->
  exists p, getPrevAyah ayahs n = Some p
            /\ next_start ayahs v n /\ immediately_precedes ayahs p n.
Proof.
  intros En. pose proof (find_some _ _ En) as [Hn Hfn]. cbv beta in Hfn.
  destruct (find_split _ _ _ En) as (l1 & l2 & E & _ & Hl1).
  pose proof (consecutive_strictly_ascending ayahs index_consecutive) as Hs.
  pose proof index_consecutive as Hc.
  pose proof v_in_index as Hv. rewrite E in Hs, Hc, Hv.
  destruct (sorted_around _ _ _ _ Hs) as [Hbefore Hafter].
  to_prop.
  assert (Hv1 : In v l1).
  { apply in_app_or in Hv. destruct Hv as [|[Hv|Hv]]; [assumption| |].
    - subst. lia.
    - specialize (Hafter v Hv). simpl in Hafter. lia. }
  destruct (snoc_cases l1) as [E1|(l1' & p & E1)];
    [rewrite E1 in Hv1; destruct Hv1|].
  rewrite E1, <- app_assoc in Hc. simpl in Hc.
  assert (E' : ayahs = l1' ++ p :: n :: l2)
    by (rewrite E, E1, <- app_assoc; reflexivity).
  destruct (getPrevAyah_listed_before _ _ _ _ Hc) as [Ep Eo].
  rewrite <- E' in Ep. exists p. split; [assumption|].
  apply getPrevAyah_Some in Ep. destruct Ep as [Hp _]. split.
  - split; [assumption|]. split; [assumption|]. split; [assumption|].
    intros m Hm Hstart Hgt. rewrite E in Hm.
    apply in_app_or in Hm. destruct Hm as [Hm|[<-|Hm]].
    + specialize (Hl1 m Hm). cbv beta in Hl1. rewrite Hstart in Hl1.
      rewrite andb_true_r in Hl1. to_prop. lia.
    + lia.
    + specialize (Hafter m Hm). simpl in Hafter. lia.
  - split; [assumption|]. split; [lia|]. intros a _ Ha. lia.
Qed.

End ListedConsecutive.

End Boundary.

(** The scenario of the specification, for any ten verses numbered 1..10
    whose sub-sections start at 1, 4 and 8. *)
Lemma boundary_scenario (idx : list Ayah) (five : Ayah) :
  map global_order idx = [1; 2; 3; 4; 5; 6; 7; 8; 9; 10] ->
  map is_ruku_start idx
  = [true; false; false; true; false; false; false; true; false; false] ->
  In five idx -> global_order five = 5 ->
  exists seven four,
    getNearestRukuBoundary idx five forward = Some seven
    /\ In seven idx /\ global_order seven = 7
    /\ getNearestRukuBoundary idx five backward = Some four
    /\ In four idx /\ global_order four = 4.
Proof.
  intros Ho Hs Hin E5.
  destruct idx as [|v1 [|v2 [|v3 [|v4 [|v5 [|v6 [|v7 [|v8 [|v9 [|v10 [|? ?]]]]]]]]]]];
    try discriminate Ho.
  simpl in Ho, Hs.
  injection Ho as O1 O2 O3 O4 O5 O6 O7 O8 O9 O10.
  injection Hs as S1 S2 S3 S4 S5 S6 S7 S8 S9 S10.
  exists v7, v4. unfold getNearestRukuBoundary, getPrevAyah. simpl.
  repeat (progress
    (rewrite ?E5, ?O1, ?O2, ?O3, ?O4, ?O5, ?O6, ?O7, ?O8, ?O9, ?O10,
             ?S1, ?S2, ?S3, ?S4, ?S5, ?S6, ?S7, ?S8, ?S9, ?S10; simpl)).
  repeat split; simpl; auto 12.
Qed.

Example boundary_scenario_ten :
  forall five, In five ten_index -> global_order five = 5 ->
    (getNearestRukuBoundary ten_index five forward
     = nth_error ten_index 6)
    /\ (getNearestRukuBoundary ten_index five backward
        = nth_error ten_index 3).
Proof.
  intros five Hin E5. unfold ten_index in Hin. simpl in Hin.
  repeat destruct Hin as [Hin|Hin]; try contradiction; subst five;
    try discriminate E5.
  split; reflexivity.
Qed.

(** The verse [getPrevAyah] finds for [n] is numbered just below [n]. *)
Lemma getPrevAyah_precedes (ayahs : list Ayah) (n p : Ayah) :
  getPrevAyah ayahs n = Some p -> immediately_precedes ayahs p n.
Proof.
  intros Ep. apply getPrevAyah_Some in Ep. destruct Ep as [Hp Ep].
  split; [assumption|]. split; [lia|]. intros a _ Ha. lia.
Qed.

(** C3, as amended. For every index and every verse [v] in it,
    [getNearestRukuBoundary] returns a verse of the index in both
    directions. In an index listed by ascending [global_order], the
    backward query returns the nearest sub-section start strictly before
    [v], or the first verse of the index when there is none. The forward
    query returns the last verse of the index when no sub-section starts
    after [v]; otherwise, with [n] the next sub-section start after [v]
    and its [global_order] a safe integer, it returns the verse immediately
    preceding [n] when the index has a verse numbered one below [n], and
    [v] itself when it has none. In particular, with verses numbered 1..10
    and sub-sections starting at 1, 4 and 8, the forward query from verse 5
    returns verse 7 and the backward query returns verse 4. *)
Theorem getNearestRukuBoundary_spec :
  forall (ayahs : list Ayah) (v : Ayah),
    In v ayahs ->
    (forall d, exists r,
        getNearestRukuBoundary ayahs v d = Some r /\ In r ayahs)
    /\ (ascending ayahs ->
        (exists r,
            getNearestRukuBoundary ayahs v backward = Some r
            /\ (prev_start ayahs v r
                \/ ((forall m, In m ayahs -> is_ruku_start m = true ->
                               global_order v <= global_order m)
                    /\ is_first ayahs r)))
        /\ (exists r,
               getNearestRukuBoundary ayahs v forward = Some r
               /\ ((exists n,
                       next_start ayahs v n
                       /\ (Js.is_safe (global_order n) ->
                           ((exists p, In p ayahs
                                       /\ global_order p = global_order n - 1) ->
                            immediately_precedes ayahs r n)
                           /\ ((forall a, In a ayahs ->
                                   global_order a <> global_order n - 1) ->
                               r = v)))
                   \/ ((forall m, In m ayahs -> is_ruku_start m = true ->
                                  global_order m <= global_order v)
                       /\ is_last ayahs r))))
    /\ (map global_order ayahs = [1; 2; 3; 4; 5; 6; 7; 8; 9; 10] ->
        map is_ruku_start ayahs
        = [true; false; false; true; false; false; false; true; false; false] ->
        global_order v = 5 ->
        exists seven four,
          getNearestRukuBoundary ayahs v forward = Some seven
          /\ In seven ayahs /\ global_order seven = 7
          /\ getNearestRukuBoundary ayahs v backward = Some four
          /\ In four ayahs /\ global_order four = 4).
Proof.
  intros ayahs v Hv. split; [apply boundary_total; assumption|]. split.
  - intros Hasc. split.
    + simpl. destruct (find _ (rev ayahs)) as [p|] eqn:Ep.
      * exists p. split; [reflexivity|]. left.
        now apply boundary_backward_found.
      * destruct (boundary_backward_none ayahs v Hv Hasc Ep)
          as (Hnone & r & Er & Hr).
        exists r. split; [assumption|]. right. now split.
    + simpl. destruct (find _ ayahs) as [n|] eqn:En.
      * pose proof (boundary_forward_start ayahs v Hasc n En) as Hnext.
        destruct (getPrevAyah ayahs n) as [p|] eqn:Ep; simpl.
        -- exists p. split; [reflexivity|]. left. exists n.
           split; [assumption|]. intros _. split.
           ++ intros _. now apply getPrevAyah_precedes.
           ++ intros Hgap. apply getPrevAyah_Some in Ep.
              destruct Ep as [Hp Ep]. destruct (Hgap p Hp Ep).
        -- exists v. split; [reflexivity|]. left. exists n.
           split; [assumption|]. intros _. split; [|reflexivity].
           intros (p & Hp & Ep').
           destruct (proj1 (getPrevAyah_None ayahs n) Ep p Hp Ep').
      * destruct (boundary_forward_none ayahs v Hv Hasc En)
          as (Hnone & r & Er & Hr).
        exists r. split; [assumption|]. right. now split.
  - intros Ho Hs E5. now apply boundary_scenario.
Qed.

Lemma getNearestRukuBoundary_witness :
  In (verse "1:1" 1 1 1 1 1 1 1 true true false) dense_index
  /\ exists r,
       getNearestRukuBoundary dense_index
         (verse "1:1" 1 1 1 1 1 1 1 true true false) forward = Some r
       /\ global_order r = 2.
Proof.
  assert (Hv : In (verse "1:1" 1 1 1 1 1 1 1 true true false) dense_index)
    by (left; reflexivity).
  split; [exact Hv|].
  destruct (getNearestRukuBoundary_spec dense_index _ Hv)
    as (Htotal & _).
  destruct (Htotal forward) as (r & Er & _).
  exists r. split; [exact Er|].
  vm_compute in Er. injection Er as <-. reflexivity.
Defined.

(** C3 as stated fails: in an index that satisfies the invariants of the
    data model and numbers its verses 1, 2, 4, the forward query from the
    first verse finds the sub-section start numbered 4, finds no verse
    numbered 3, and returns the first verse itself, while the verse
    immediately preceding that start is the second one. *)
Lemma getNearestRukuBoundary_stays_at_gap :
  index_invariants gapped_index = true
  /\ In (verse "1:1" 1 1 1 1 1 1 1 true true false) gapped_index
  /\ next_start gapped_index
       (verse "1:1" 1 1 1 1 1 1 1 true true false)
       (verse "2:1" 2 1 2 4 1 2 2 true true true)
  /\ immediately_precedes gapped_index
       (verse "1:2" 1 2 1 2 1 1 1 false false true)
       (verse "2:1" 2 1 2 4 1 2 2 true true true)
  /\ getNearestRukuBoundary gapped_index
       (verse "1:1" 1 1 1 1 1 1 1 true true false) forward
     = Some (verse "1:1" 1 1 1 1 1 1 1 true true false)
  /\ getNearestRukuBoundary gapped_index
       (verse "1:1" 1 1 1 1 1 1 1 true true false) forward
     <> Some (verse "1:2" 1 2 1 2 1 1 1 false false true).
Proof.
  split; [vm_compute; reflexivity|]. split; [left; reflexivity|]. split.
  { split; [right; right; left; reflexivity|]. split; [reflexivity|].
    split; [simpl; lia|]. intros m Hm Hstart Hgt.
    unfold gapped_index in Hm. index_cases; simpl in *; lia. }
  split.
  { split; [right; left; reflexivity|]. split; [simpl; lia|].
    intros a Ha Hlt. unfold gapped_index in Ha.
    index_cases; simpl in *; lia. }
  split; [reflexivity | vm_compute; discriminate].
Qed.

(** ** Last verse of a sub-section *)

Section Invariants.

Lemma adjacent_all_sorted (R : Ayah -> Ayah -> bool) (P : Ayah -> Ayah -> Prop)
    (l : list Ayah) :
  (forall a b, R a b = true -> P a b) ->
  (forall a b c, P a b -> P b c -> P a c) ->
  adjacent_all R l = true -> StronglySorted P l.
Proof.
  intros HRP Htrans. induction l as [|a l IH]; [constructor|].
  destruct l as [|b l]; [repeat constructor|].
  intros Hadj. simpl in Hadj. apply andb_true_iff in Hadj.
  destruct Hadj as [Hab Hadj].
  specialize (IH Hadj). constructor; [assumption|].
  apply StronglySorted_inv in IH. destruct IH as [_ Hb].
  constructor; [now apply HRP|].
  eapply Forall_impl; [|exact Hb]. intros c Hbc.
  apply (Htrans a b c); [now apply HRP | assumption].
Qed.

Lemma first_in_spec (f : Ayah -> Z) (l : list Ayah) (a : Ayah) :
  first_in f l a = true
  <-> forall b, In b l -> f b = f a -> global_order a <= global_order b.
Proof.
  unfold first_in. rewrite forallb_forall. split; intros H b Hb.
  - intros E. specialize (H b Hb). apply Z.eqb_eq in E. rewrite E in H.
    simpl in H. now apply Z.leb_le.
  - destruct (Z.eqb_spec (f b) (f a)) as [E|]; [|reflexivity].
    simpl. apply Z.leb_le. auto.
Qed.

Variable ayahs : list Ayah.
Hypothesis invariants_hold : index_invariants ayahs = true.

Lemma invariants_strictly_ascending : strictly_ascending ayahs.
Proof.
  pose proof invariants_hold as Hinv.
  unfold index_invariants in Hinv. to_prop.
  apply (adjacent_all_sorted (fun a b => global_order a <? global_order b));
    [| |assumption].
  - intros a b Hab. now apply Z.ltb_lt.
  - intros a b c. simpl. lia.
Qed.

Lemma invariants_ruku_monotone :
  StronglySorted (fun a b => ruku_global a <= ruku_global b) ayahs.
Proof.
  pose proof invariants_hold as Hinv.
  unfold index_invariants in Hinv. to_prop.
  apply (adjacent_all_sorted (fun a b => ruku_global a <=? ruku_global b));
    [| |assumption].
  - intros a b Hab. now apply Z.leb_le.
  - intros a b c. simpl. lia.
Qed.

Lemma invariants_ruku_start (a : Ayah) :
  In a ayahs ->
  (is_ruku_start a = true
   <-> forall b, In b ayahs -> ruku_global b = ruku_global a ->
                 global_order a <= global_order b).
Proof.
  intros Ha. rewrite <- first_in_spec.
  pose proof invariants_hold as Hinv.
  unfold index_invariants in Hinv. to_prop.
  match goal with
  | H : forallb (fun a => Bool.eqb (is_ruku_start a) _) ayahs = true |- _ =>
      rewrite forallb_forall in H; specialize (H a Ha);
      apply Bool.eqb_prop in H; now rewrite H
  end.
Qed.

(** A sub-section that has verses has a verse marked as its start. *)
Lemma first_of_ruku_exists (s : Z) :
  (exists a, In a ayahs /\ ruku_global a = s) ->
  exists f, getFirstAyahOfRuku ayahs s = Some f.
Proof.
  intros (a & Ha & Es).
  destruct (find_is_Some (fun x => ruku_global x =? s) ayahs a Ha) as [f0 E0];
    [now apply Z.eqb_eq|].
  destruct (find_split _ _ _ E0) as (l1 & l2 & E & Hf0 & Hl1).
  apply find_some in E0. destruct E0 as [Hin0 _]. to_prop.
  apply (find_is_Some _ ayahs f0 Hin0). apply andb_true_iff.
  split; [now apply Z.eqb_eq|].
  apply invariants_ruku_start; [assumption|]. intros b Hb Eb.
  pose proof invariants_strictly_ascending as Hs. rewrite E in Hs, Hb.
  destruct (sorted_around _ _ _ _ Hs) as [_ Hafter].
  apply in_app_or in Hb. destruct Hb as [Hb|[<-|Hb]].
  - specialize (Hl1 b Hb). cbv beta in Hl1. to_prop. congruence.
  - lia.
  - specialize (Hafter b Hb). simpl in Hafter. lia.
Qed.

(** Sub-section ids do not decrease with [global_order]. *)
Lemma ruku_le_of_order (x y : Ayah) :
  In x ayahs -> In y ayahs ->
  global_order x <= global_order y -> ruku_global x <= ruku_global y.
Proof.
  intros Hx Hy Hle. destruct (in_split _ _ Hx) as (l1 & l2 & E).
  pose proof invariants_strictly_ascending as Hs.
  pose proof invariants_ruku_monotone as Hr.
  rewrite E in Hs, Hr, Hy.
  destruct (sorted_around _ _ _ _ Hs) as [Hbefore _].
  destruct (sorted_around _ _ _ _ Hr) as [_ Hrafter].
  apply in_app_or in Hy. destruct Hy as [Hy|[<-|Hy]].
  - specialize (Hbefore y Hy). simpl in Hbefore. lia.
  - lia.
  - now apply Hrafter.
Qed.

(** A verse numbered one below the start of sub-section [s + 1] is the last
    verse of sub-section [s]. *)
Lemma before_next_ruku_start (s : Z) (f p : Ayah) :
  (exists a, In a ayahs /\ ruku_global a = s) ->
  find (fun a => (ruku_global a =? s + 1) && is_ruku_start a) ayahs = Some f ->
  In p ayahs -> global_order p = global_order f - 1 ->
  last_of_ruku ayahs s p.
Proof.
  intros (x & Hx & Ex) Ef Hp Ep.
  pose proof (find_some _ _ Ef) as [Hf Hff]. cbv beta in Hff.
  apply andb_true_iff in Hff. destruct Hff as [Ef1 Hstart].
  apply Z.eqb_eq in Ef1.
  pose proof (proj1 (invariants_ruku_start f Hf) Hstart) as Hfirst.
  assert (Hbelow : forall a, In a ayahs -> ruku_global a <= s ->
                             global_order a <= global_order p).
  { intros a Ha Hle.
    destruct (Z.lt_ge_cases (global_order a) (global_order f)) as [|Hge];
      [lia|].
    pose proof (ruku_le_of_order f a Hf Ha Hge). lia. }
  assert (Hple : ruku_global p <= s).
  { assert (ruku_global p <= ruku_global f)
      by (apply ruku_le_of_order; [assumption..|lia]).
    destruct (Z.eq_dec (ruku_global p) (s + 1)) as [Eq|]; [|lia].
    assert (global_order f <= global_order p)
      by (apply Hfirst; [assumption | congruence]).
    lia. }
  assert (Hpge : s <= ruku_global p).
  { rewrite <- Ex. apply ruku_le_of_order; [assumption..|].
    apply Hbelow; [assumption | lia]. }
  split; [assumption|]. split; [lia|].
  intros a Ha Ea. apply Hbelow; [assumption | lia].
Qed.

End Invariants.

(** The fallback of [getLastAyahOfRuku]: the last listed verse of the
    sub-section has its greatest [global_order]. *)
Lemma last_listed_of_ruku (ayahs : list Ayah) (s : Z) :
  ascending ayahs ->
  (exists a, In a ayahs /\ ruku_global a = s) ->
  let rukuAyahs := filter (fun a => ruku_global a =? s) ayahs in
  exists r, Js.index rukuAyahs (Js.length rukuAyahs - 1) = Some r
            /\ last_of_ruku ayahs s r.
Proof.
  intros Hasc (x & Hx & Ex) R.
  assert (HxR : In x R) by (apply filter_In; split; [|apply Z.eqb_eq]; auto).
  assert (HR : ascending R) by now apply ascending_filter.
  destruct (index_last_defined R x HxR) as (r & Er & Hr).
  exists r. split; [assumption|].
  destruct (ascending_last R r HR Er) as [_ Hmax].
  apply filter_In in Hr. destruct Hr as [Hr Es]. apply Z.eqb_eq in Es.
  split; [assumption|]. split; [assumption|].
  intros a Ha Ea. apply Hmax, filter_In. split; [|apply Z.eqb_eq]; auto.
Qed.

(** C4, as amended. In an index that satisfies the invariants of the data
    model, for every sub-section id [s] that has verses and is a safe
    integer: when no verse has sub-section id [s + 1], [getLastAyahOfRuku]
    returns the verse of greatest [global_order] among the verses of
    sub-section [s]; when sub-section [s + 1] exists, with [f] its first
    verse and the [global_order] of [f] a safe integer, [getLastAyahOfRuku]
    returns what [getPrevAyah] returns for [f]: the verse of greatest
    [global_order] among the verses of sub-section [s] when the index has a
    verse numbered one below [f], and none when it has no such verse. *)
Theorem getLastAyahOfRuku_spec :
  forall (ayahs : list Ayah) (s : Z),
    index_invariants ayahs = true ->
    (exists a, In a ayahs /\ ruku_global a = s) ->
    Js.is_safe s ->
    ((forall a, In a ayahs -> ruku_global a <> s + 1) ->
     exists r, getLastAyahOfRuku ayahs s = Some r /\ last_of_ruku ayahs s r)
    /\ ((exists a, In a ayahs /\ ruku_global a = s + 1) ->
        exists f,
          getFirstAyahOfRuku ayahs (s + 1) = Some f
          /\ (Js.is_safe (global_order f) ->
              getLastAyahOfRuku ayahs s = getPrevAyah ayahs f
              /\ ((exists p, In p ayahs
                             /\ global_order p = global_order f - 1) ->
                  exists r, getLastAyahOfRuku ayahs s = Some r
                            /\ last_of_ruku ayahs s r)
              /\ ((forall a, In a ayahs ->
                             global_order a <> global_order f - 1) ->
                  getLastAyahOfRuku ayahs s = None))).
Proof.
  intros ayahs s Hinv Hs _. split.
  - intros Hfinal. unfold getLastAyahOfRuku.
    destruct (find (fun a => (ruku_global a =? s + 1) && is_ruku_start a) ayahs)
      as [f|] eqn:Ef.
    + apply find_some in Ef. destruct Ef as [Hf Ef]. cbv beta in Ef.
      apply andb_true_iff in Ef. destruct Ef as [Ef _].
      apply Z.eqb_eq in Ef. destruct (Hfinal f Hf Ef).
    + apply last_listed_of_ruku; [|assumption].
      apply strictly_ascending_ascending.
      now apply invariants_strictly_ascending.
  - intros Hnext.
    destruct (first_of_ruku_exists ayahs Hinv (s + 1) Hnext) as [f Ef].
    exists f. split; [assumption|]. intros _.
    unfold getFirstAyahOfRuku in Ef.
    assert (E : getLastAyahOfRuku ayahs s = getPrevAyah ayahs f)
      by (unfold getLastAyahOfRuku; now rewrite Ef).
    split; [assumption|]. split.
    + intros (p & Hp & Ep).
      destruct (find_is_Some
                  (fun a => global_order a =? global_order f - 1) ayahs p Hp)
        as [r Er]; [now apply Z.eqb_eq|].
      exists r. rewrite E. split; [exact Er|].
      apply getPrevAyah_Some in Er. destruct Er as [Hr Er].
      now apply (before_next_ruku_start ayahs Hinv s f r).
    + intros Hgap. rewrite E. now apply getPrevAyah_None.
Qed.

Lemma getLastAyahOfRuku_witness :
  (index_invariants dense_index = true
   /\ (exists a, In a dense_index /\ ruku_global a = 1)
   /\ Js.is_safe 1)
  /\ getLastAyahOfRuku dense_index 1
     = Some (verse "1:2" 1 2 1 2 1 1 1 false false true).
Proof.
  assert (Hinv : index_invariants dense_index = true)
    by (vm_compute; reflexivity).
  assert (Hs : exists a, In a dense_index /\ ruku_global a = 1).
  { exists (verse "1:1" 1 1 1 1 1 1 1 true true false).
    split; [left|]; reflexivity. }
  assert (Hsafe : Js.is_safe 1) by (unfold Js.is_safe; lia).
  split; [split; [exact Hinv | split; [exact Hs | exact Hsafe]]|].
  destruct (getLastAyahOfRuku_spec dense_index 1 Hinv Hs Hsafe)
    as [_ Hnext].
  destruct Hnext as (f & Ef & Hf).
  { exists (verse "2:1" 2 1 2 3 1 2 2 true true true).
    split; [right; right; left|]; reflexivity. }
  vm_compute in Ef. injection Ef as <-.
  destruct Hf as (E & _); [unfold Js.is_safe; simpl; lia|].
  rewrite E. reflexivity.
Defined.

(** C4 as stated fails: the index numbered 1, 2, 4 satisfies the invariants
    of the data model, its sub-sections 1 and 2 both have verses, the last
    verse of sub-section 1 is the one numbered 2, and [getLastAyahOfRuku]
    returns none for sub-section 1 because no verse is numbered 3. *)
Lemma getLastAyahOfRuku_none_at_gap :
  index_invariants gapped_index = true
  /\ (exists a, In a gapped_index /\ ruku_global a = 1)
  /\ (exists a, In a gapped_index /\ ruku_global a = 1 + 1)
  /\ last_of_ruku gapped_index 1 (verse "1:2" 1 2 1 2 1 1 1 false false true)
  /\ getLastAyahOfRuku gapped_index 1 = None.
Proof.
  split; [vm_compute; reflexivity|]. split.
  { exists (verse "1:1" 1 1 1 1 1 1 1 true true false).
    split; [left|]; reflexivity. }
  split.
  { exists (verse "2:1" 2 1 2 4 1 2 2 true true true).
    split; [right; right; left|]; reflexivity. }
  split; [|reflexivity].
  split; [right; left; reflexivity|]. split; [reflexivity|].
  intros a Ha Ea. unfold gapped_index in Ha.
  index_cases; simpl in *; lia.
Qed.

(** * Claims on the pool builder *)

Lemma distinct_NoDup (l : list string) : distinct l = true -> NoDup l.
Proof.
  induction l as [|k l IH]; simpl; intros H; [constructor|].
  apply andb_true_iff in H. destruct H as [Hk Hl].
  constructor; [|now apply IH].
  intros Hin. apply negb_true_iff in Hk.
  assert (Hex : existsb (String.eqb k) l = true)
    by (apply existsb_exists; exists k; split;
        [assumption | apply String.eqb_refl]).
  congruence.
Qed.

Lemma NoDup_map_inj {A B : Type} (f : A -> B) (l : list A) (a b : A) :
  NoDup (map f l) -> In a l -> In b l -> f a = f b -> a = b.
Proof.
  induction l as [|x l IH]; simpl; intros Hn Ha Hb E; [destruct Ha|].
  apply NoDup_cons_iff in Hn. destruct Hn as [Hx Hn].
  destruct Ha as [Ha|Ha], Hb as [Hb|Hb]; subst.
  - reflexivity.
  - destruct Hx. rewrite E. now apply in_map.
  - destruct Hx. rewrite <- E. now apply in_map.
  - now apply IH.
Qed.

(** In an index that satisfies the invariants of the data model a
    [verse_key] names one record and a [global_order] one key. *)
Lemma invariants_key_identifies (ayahs : list Ayah) :
  index_invariants ayahs = true -> key_identifies ayahs.
Proof.
  intros Hinv a b Ha Hb E. unfold index_invariants in Hinv. to_prop.
  apply (NoDup_map_inj verse_key ayahs); [|assumption..].
  now apply distinct_NoDup.
Qed.

Lemma invariants_order_identifies (ayahs : list Ayah) :
  index_invariants ayahs = true -> order_identifies ayahs.
Proof.
  intros Hinv a b Ha Hb E. f_equal.
  apply (strictly_ascending_inj ayahs); [|assumption..].
  now apply invariants_strictly_ascending.
Qed.

(** C1. For every index that satisfies the invariants of the data model
    and every descriptor list, empty or not, the pool is sorted strictly
    ascending by [global_order] and holds no two verses with the same
    [verse_key]; and the empty descriptor list gives the empty pool. *)
Theorem buildTestPool_sorted_spec :
  forall (ayahs : list Ayah) (ranges : list TestPoolRange),
    index_invariants ayahs = true ->
    strictly_ascending (buildTestPool ayahs ranges)
    /\ NoDup (map verse_key (buildTestPool ayahs ranges))
    /\ buildTestPool ayahs [] = [].
Proof.
  intros ayahs ranges Hinv. split; [|split].
  - apply pool_strictly_ascending. now apply invariants_order_identifies.
  - apply pool_keys_distinct.
  - reflexivity.
Qed.

Lemma buildTestPool_sorted_spec_witness :
  index_invariants dense_index = true
  /\ strictly_ascending
       (buildTestPool dense_index [JuzRange 1 1; AyahRange 1 2 2 1])
  /\ buildTestPool dense_index [JuzRange 1 1; AyahRange 1 2 2 1]
     = dense_index.
Proof.
  assert (Hinv : index_invariants dense_index = true)
    by (vm_compute; reflexivity).
  split; [exact Hinv|]. split; [|reflexivity].
  apply (buildTestPool_sorted_spec dense_index
           [JuzRange 1 1; AyahRange 1 2 2 1] Hinv).
Defined.

(** C7. For every index that satisfies the invariants of the data model
    and every descriptor list [d1], listing the descriptors twice leaves
    the pool unchanged, and so does every reordering of the list. *)
Theorem buildTestPool_idempotent_spec :
  forall (ayahs : list Ayah) (d1 : list TestPoolRange),
    index_invariants ayahs = true ->
    buildTestPool ayahs (d1 ++ d1) = buildTestPool ayahs d1
    /\ (forall d1', Permutation d1 d1' ->
          buildTestPool ayahs d1' = buildTestPool ayahs d1).
Proof.
  intros ayahs d1 Hinv.
  destruct (buildTestPool_idempotent ayahs d1) as [Hdup Hperm].
  split; [exact Hdup|]. apply Hperm.
  - now apply invariants_key_identifies.
  - now apply invariants_order_identifies.
Qed.

Lemma buildTestPool_idempotent_spec_witness :
  index_invariants dense_index = true
  /\ buildTestPool dense_index [AyahRange 1 2 2 1; JuzRange 1 1]
     = buildTestPool dense_index [JuzRange 1 1; AyahRange 1 2 2 1].
Proof.
  assert (Hinv : index_invariants dense_index = true)
    by (vm_compute; reflexivity).
  split; [exact Hinv|].
  apply (buildTestPool_idempotent_spec dense_index
           [JuzRange 1 1; AyahRange 1 2 2 1] Hinv).
  apply perm_swap.
Defined.

(** C8. For every index that satisfies the invariants of the data model
    and any descriptor lists [d1] and [d2], a verse is in the pool of
    [d1 ++ d2] exactly when it is in the pool of [d1] or in the pool of
    [d2]. *)
Theorem buildTestPool_union_spec :
  forall (ayahs : list Ayah) (d1 d2 : list TestPoolRange),
    index_invariants ayahs = true ->
    forall a, In a (buildTestPool ayahs (d1 ++ d2))
              <-> In a (buildTestPool ayahs d1)
                  \/ In a (buildTestPool ayahs d2).
Proof.
  intros ayahs d1 d2 Hinv a.
  pose proof (invariants_key_identifies ayahs Hinv) as Hkey.
  rewrite !pool_In, writes_app by assumption. apply in_app_iff.
Qed.

Lemma buildTestPool_union_spec_witness :
  index_invariants dense_index = true
  /\ In (verse "2:1" 2 1 2 3 1 2 2 true true true)
        (buildTestPool dense_index
           ([AyahRange 1 1 1 2] ++ [AyahRange 2 1 2 1])).
Proof.
  assert (Hinv : index_invariants dense_index = true)
    by (vm_compute; reflexivity).
  split; [exact Hinv|].
  apply (buildTestPool_union_spec dense_index
           [AyahRange 1 1 1 2] [AyahRange 2 1 2 1] Hinv).
  right. left. reflexivity.
Defined.

(** * Further properties of the engine *)

(** ** First and last verse of a page or sub-section *)

Section Flags.

Variable ayahs : list Ayah.
Hypothesis index_strict : strictly_ascending ayahs.

(** The first listed verse with a given value of [f] has the least
    [global_order] among the verses with that value. *)
Lemma first_listed_is_least (f : Ayah -> Z) (s : Z) (x : Ayah) :
  find (fun a => f a =? s) ayahs = Some x ->
  In x ayahs /\ f x = s
  /\ forall b, In b ayahs -> f b = s -> global_order x <= global_order b.
Proof.
  intros Ex. destruct (find_split _ _ _ Ex) as (l1 & l2 & E & Hx & Hl1).
  apply find_some in Ex. destruct Ex as [Hin _]. apply Z.eqb_eq in Hx.
  split; [assumption|]. split; [assumption|]. intros b Hb Eb.
  pose proof index_strict as Hs. rewrite E in Hs, Hb.
  destruct (sorted_around _ _ _ _ Hs) as [_ Hafter].
  apply in_app_or in Hb. destruct Hb as [Hb|[<-|Hb]].
  - specialize (Hl1 b Hb). cbv beta in Hl1. apply Z.eqb_neq in Hl1.
    contradiction.
  - lia.
  - specialize (Hafter b Hb). simpl in Hafter. lia.
Qed.

(** The last listed verse with a given value of [f] has the greatest. *)
Lemma last_listed_is_greatest (f : Ayah -> Z) (s : Z) (x : Ayah) :
  find (fun a => f a =? s) (rev ayahs) = Some x ->
  In x ayahs /\ f x = s
  /\ forall b, In b ayahs -> f b = s -> global_order b <= global_order x.
Proof.
  intros Ex. destruct (find_split _ _ _ Ex) as (l1 & l2 & E & Hx & Hl1).
  apply find_some in Ex. destruct Ex as [Hin _]. apply in_rev in Hin.
  apply Z.eqb_eq in Hx.
  split; [assumption|]. split; [assumption|]. intros b Hb Eb.
  assert (E' : ayahs = rev l2 ++ x :: rev l1).
  { rewrite <- (rev_involutive ayahs), E, rev_app_distr. simpl.
    now rewrite <- app_assoc. }
  pose proof index_strict as Hs. rewrite E' in Hs, Hb.
  destruct (sorted_around _ _ _ _ Hs) as [Hbefore _].
  apply in_app_or in Hb. destruct Hb as [Hb|[<-|Hb]].
  - specialize (Hbefore b Hb). simpl in Hbefore. lia.
  - lia.
  - apply in_rev in Hb. specialize (Hl1 b Hb). cbv beta in Hl1.
    apply Z.eqb_neq in Hl1. contradiction.
Qed.

(** A lookup by value and flag, when the flag marks the least verse of each
    value: it finds that verse, and finds nothing only when no verse has
    the value. *)
Lemma find_flagged_least (f : Ayah -> Z) (flag : Ayah -> bool) (s : Z) :
  (forall a, In a ayahs ->
     (flag a = true
      <-> forall b, In b ayahs -> f b = f a ->
                    global_order a <= global_order b)) ->
  (find (fun a => (f a =? s) && flag a) ayahs = None
   <-> forall a, In a ayahs -> f a <> s)
  /\ (forall x, find (fun a => (f a =? s) && flag a) ayahs = Some x ->
        In x ayahs /\ f x = s
        /\ forall b, In b ayahs -> f b = s ->
                     global_order x <= global_order b).
Proof.
  intros Hflag. split.
  - split.
    + intros Hnone a Ha Ea.
      destruct (find_is_Some (fun x => f x =? s) ayahs a Ha) as [x Ex];
        [now apply Z.eqb_eq|].
      destruct (first_listed_is_least f s x Ex) as (Hx & Es & Hleast).
      pose proof (find_none _ _ Hnone x Hx) as Hfalse. cbv beta in Hfalse.
      rewrite (proj2 (Z.eqb_eq _ _) Es) in Hfalse. simpl in Hfalse.
      assert (flag x = true).
      { apply Hflag; [assumption|]. intros b Hb Eb. apply Hleast; congruence. }
      congruence.
    + intros Hnone. apply find_is_None. intros a Ha.
      rewrite (proj2 (Z.eqb_neq _ _) (Hnone a Ha)). reflexivity.
  - intros x Ex. apply find_some in Ex. destruct Ex as [Hx Hfx].
    cbv beta in Hfx. apply andb_true_iff in Hfx. destruct Hfx as [Es Hf].
    apply Z.eqb_eq in Es. split; [assumption|]. split; [assumption|].
    intros b Hb Eb. apply (proj1 (Hflag x Hx) Hf); congruence.
Qed.

Lemma find_flagged_greatest (f : Ayah -> Z) (flag : Ayah -> bool) (s : Z) :
  (forall a, In a ayahs ->
     (flag a = true
      <-> forall b, In b ayahs -> f b = f a ->
                    global_order b <= global_order a)) ->
  (find (fun a => (f a =? s) && flag a) ayahs = None
   <-> forall a, In a ayahs -> f a <> s)
  /\ (forall x, find (fun a => (f a =? s) && flag a) ayahs = Some x ->
        In x ayahs /\ f x = s
        /\ forall b, In b ayahs -> f b = s ->
                     global_order b <= global_order x).
Proof.
  intros Hflag. split.
  - split.
    + intros Hnone a Ha Ea.
      destruct (find_is_Some (fun x => f x =? s) (rev ayahs) a) as [x Ex];
        [now apply in_rev in Ha | now apply Z.eqb_eq |].
      destruct (last_listed_is_greatest f s x Ex) as (Hx & Es & Hmost).
      pose proof (find_none _ _ Hnone x Hx) as Hfalse. cbv beta in Hfalse.
      rewrite (proj2 (Z.eqb_eq _ _) Es) in Hfalse. simpl in Hfalse.
      assert (flag x = true).
      { apply Hflag; [assumption|]. intros b Hb Eb. apply Hmost; congruence. }
      congruence.
    + intros Hnone. apply find_is_None. intros a Ha.
      rewrite (proj2 (Z.eqb_neq _ _) (Hnone a Ha)). reflexivity.
  - intros x Ex. apply find_some in Ex. destruct Ex as [Hx Hfx].
    cbv beta in Hfx. apply andb_true_iff in Hfx. destruct Hfx as [Es Hf].
    apply Z.eqb_eq in Es. split; [assumption|]. split; [assumption|].
    intros b Hb Eb. apply (proj1 (Hflag x Hx) Hf); congruence.
Qed.

End Flags.

Lemma last_in_spec (f : Ayah -> Z) (l : list Ayah) (a : Ayah) :
  last_in f l a = true
  <-> forall b, In b l -> f b = f a -> global_order b <= global_order a.
Proof.
  unfold last_in. rewrite forallb_forall. split; intros H b Hb.
  - intros E. specialize (H b Hb). apply Z.eqb_eq in E. rewrite E in H.
    simpl in H. now apply Z.leb_le.
  - destruct (Z.eqb_spec (f b) (f a)) as [E|]; [|reflexivity].
    simpl. apply Z.leb_le. auto.
Qed.

Lemma invariants_page_flags (ayahs : list Ayah) (a : Ayah) :
  index_invariants ayahs = true -> In a ayahs ->
  (is_page_start a = true
   <-> forall b, In b ayahs -> page_13line b = page_13line a ->
                 global_order a <= global_order b)
  /\ (is_page_end a = true
      <-> forall b, In b ayahs -> page_13line b = page_13line a ->
                    global_order b <= global_order a).
Proof.
  intros Hinv Ha. rewrite <- first_in_spec, <- last_in_spec.
  unfold index_invariants in Hinv.
  repeat (apply andb_true_iff in Hinv; destruct Hinv as [Hinv ?]).
  repeat match goal with
  | H : forallb _ ayahs = true |- _ =>
      rewrite forallb_forall in H; specialize (H a Ha)
  end.
  split;
    match goal with
    | H : Bool.eqb ?x ?y = true |- ?x = true <-> ?y = true =>
        apply Bool.eqb_prop in H; now rewrite H
    end.
Qed.

(** X1. In an index that satisfies the invariants of the data model,
    [getFirstAyahOfRuku] returns none exactly when no verse belongs to the
    sub-section, and otherwise returns the verse of the sub-section with the
    least [global_order]. *)
Theorem getFirstAyahOfRuku_spec :
  forall (ayahs : list Ayah) (rukuGlobal : Z),
    index_invariants ayahs = true ->
    (getFirstAyahOfRuku ayahs rukuGlobal = None
     <-> forall a, In a ayahs -> ruku_global a <> rukuGlobal)
    /\ (forall f, getFirstAyahOfRuku ayahs rukuGlobal = Some f ->
          In f ayahs /\ ruku_global f = rukuGlobal
          /\ is_ruku_start f = true
          /\ forall b, In b ayahs -> ruku_global b = rukuGlobal ->
                       global_order f <= global_order b).
Proof.
  intros ayahs s Hinv. unfold getFirstAyahOfRuku.
  destruct (find_flagged_least ayahs (invariants_strictly_ascending ayahs Hinv)
              ruku_global is_ruku_start s) as [Hnone Hsome].
  { intros a Ha. now apply invariants_ruku_start. }
  split; [exact Hnone|]. intros f Ef.
  destruct (Hsome f Ef) as (Hf & Es & Hleast).
  apply find_some in Ef. destruct Ef as [_ Hflag]. cbv beta in Hflag.
  apply andb_true_iff in Hflag. tauto.
Qed.

Lemma getFirstAyahOfRuku_witness :
  index_invariants dense_index = true
  /\ getFirstAyahOfRuku dense_index 3 = None.
Proof.
  assert (Hinv : index_invariants dense_index = true)
    by (vm_compute; reflexivity).
  split; [exact Hinv|].
  apply (getFirstAyahOfRuku_spec dense_index 3 Hinv).
  intros a Ha. unfold dense_index in Ha. index_cases; simpl; lia.
Defined.

(** X2. In an index that satisfies the invariants of the data model,
    [getFirstAyahOfPage] and [getLastAyahOfPage] return none exactly when no
    verse is on the page, and otherwise the verse of the page with the
    least, respectively the greatest, [global_order]. *)
Theorem page_ends_spec :
  forall (ayahs : list Ayah) (page : Z),
    index_invariants ayahs = true ->
    (getFirstAyahOfPage ayahs page = None
     <-> forall a, In a ayahs -> page_13line a <> page)
    /\ (forall f, getFirstAyahOfPage ayahs page = Some f ->
          In f ayahs /\ page_13line f = page
          /\ forall b, In b ayahs -> page_13line b = page ->
                       global_order f <= global_order b)
    /\ (getLastAyahOfPage ayahs page = None
        <-> forall a, In a ayahs -> page_13line a <> page)
    /\ (forall l, getLastAyahOfPage ayahs page = Some l ->
          In l ayahs /\ page_13line l = page
          /\ forall b, In b ayahs -> page_13line b = page ->
                       global_order b <= global_order l).
Proof.
  intros ayahs page Hinv.
  pose proof (invariants_strictly_ascending ayahs Hinv) as Hs.
  unfold getFirstAyahOfPage, getLastAyahOfPage.
  destruct (find_flagged_least ayahs Hs page_13line is_page_start page)
    as [Hnone1 Hsome1].
  { intros a Ha. now apply invariants_page_flags. }
  destruct (find_flagged_greatest ayahs Hs page_13line is_page_end page)
    as [Hnone2 Hsome2].
  { intros a Ha. now apply invariants_page_flags. }
  repeat split; try apply Hnone1; try apply Hnone2;
    try (now apply Hsome1); now apply Hsome2.
Qed.

Lemma page_ends_witness :
  index_invariants dense_index = true
  /\ getLastAyahOfPage dense_index 1
     = Some (verse "1:2" 1 2 1 2 1 1 1 false false true)
  /\ forall b, In b dense_index -> page_13line b = 1 -> global_order b <= 2.
Proof.
  assert (Hinv : index_invariants dense_index = true)
    by (vm_compute; reflexivity).
  split; [exact Hinv|]. split; [reflexivity|].
  destruct (page_ends_spec dense_index 1 Hinv) as (_ & _ & _ & Hlast).
  apply (Hlast (verse "1:2" 1 2 1 2 1 1 1 false false true)). reflexivity.
Defined.

(** ** Moving forth and back *)

(** Where a number is carried by one record only, a lookup by number finds
    that record. *)
Lemma find_unique_order (ayahs : list Ayah) (v : Ayah) (z : Z) :
  key_identifies ayahs -> order_identifies ayahs ->
  In v ayahs -> global_order v = z ->
  find (fun a => global_order a =? z) ayahs = Some v.
Proof.
  intros Hkey Hord Hv Ez.
  destruct (find_is_Some (fun a => global_order a =? z) ayahs v Hv) as [y Ey];
    [now apply Z.eqb_eq|].
  rewrite Ey. f_equal. apply find_some in Ey. destruct Ey as [Hy Ey].
  cbv beta in Ey. apply Z.eqb_eq in Ey.
  apply Hkey; [assumption..|]. apply Hord; [assumption..|]. congruence.
Qed.

(** X3. In an index where a [verse_key] names one record and verses with
    different keys have different [global_order], from a verse whose
    [global_order] is a safe integer, stepping to the next verse and back,
    or to the previous verse and forth, returns to the verse one started
    from. *)
Theorem next_prev_round_trip :
  forall (ayahs : list Ayah) (v : Ayah),
    key_identifies ayahs -> order_identifies ayahs -> In v ayahs ->
    Js.is_safe (global_order v) ->
    (forall n, getNextAyah ayahs v = Some n -> getPrevAyah ayahs n = Some v)
    /\ (forall p, getPrevAyah ayahs v = Some p ->
                  getNextAyah ayahs p = Some v).
Proof.
  intros ayahs v Hkey Hord Hv _. split.
  - intros n En. apply getNextAyah_Some in En. destruct En as [_ En].
    apply find_unique_order; [assumption..|]. lia.
  - intros p Ep. apply getPrevAyah_Some in Ep. destruct Ep as [_ Ep].
    apply find_unique_order; [assumption..|]. lia.
Qed.

Lemma next_prev_round_trip_witness :
  (key_identifies dense_index /\ order_identifies dense_index
   /\ In (verse "1:1" 1 1 1 1 1 1 1 true true false) dense_index
   /\ Js.is_safe (global_order (verse "1:1" 1 1 1 1 1 1 1 true true false)))
  /\ getPrevAyah dense_index (verse "1:2" 1 2 1 2 1 1 1 false false true)
     = Some (verse "1:1" 1 1 1 1 1 1 1 true true false).
Proof.
  assert (Hv : In (verse "1:1" 1 1 1 1 1 1 1 true true false) dense_index)
    by (left; reflexivity).
  assert (Hsafe : Js.is_safe
                    (global_order (verse "1:1" 1 1 1 1 1 1 1 true true false)))
    by (unfold Js.is_safe; simpl; lia).
  split.
  - split; [exact dense_index_key_identifies|].
    split; [exact dense_index_order_identifies|]. split; [exact Hv | exact Hsafe].
  - apply (next_prev_round_trip dense_index _ dense_index_key_identifies
             dense_index_order_identifies Hv Hsafe).
    reflexivity.
Defined.

(** ** The boundary brackets the verse *)

Lemma backward_boundary_not_after (ayahs : list Ayah) (v : Ayah) :
  ascending ayahs -> In v ayahs ->
  exists back,
    getNearestRukuBoundary ayahs v backward = Some back
    /\ In back ayahs /\ global_order back <= global_order v.
Proof.
  intros Hasc Hv.
  destruct (boundary_total ayahs v Hv backward) as (back & Eb & Hb).
  exists back. repeat (split; [assumption|]).
  simpl in Eb. destruct (find _ (rev ayahs)) as [p|] eqn:Ep.
  - injection Eb as <-. apply find_some in Ep. destruct Ep as [_ Ep].
    cbv beta in Ep. to_prop. lia.
  - destruct (boundary_backward_none ayahs v Hv Hasc Ep)
      as (_ & r & Er & _ & Hmin).
    rewrite Er in Eb. injection Eb as <-. now apply Hmin.
Qed.

Lemma forward_boundary_not_before (ayahs : list Ayah) (v : Ayah) :
  ascending ayahs -> In v ayahs ->
  exists forth,
    getNearestRukuBoundary ayahs v forward = Some forth
    /\ In forth ayahs /\ global_order v <= global_order forth.
Proof.
  intros Hasc Hv.
  destruct (boundary_total ayahs v Hv forward) as (forth & Ef & Hf).
  exists forth. repeat (split; [assumption|]).
  simpl in Ef. destruct (find _ ayahs) as [n|] eqn:En.
  - injection Ef as <-. apply find_some in En. destruct En as [_ En].
    cbv beta in En. to_prop.
    destruct (getPrevAyah ayahs n) as [p|] eqn:Ep; simpl; [|lia].
    apply getPrevAyah_Some in Ep. lia.
  - destruct (boundary_forward_none ayahs v Hv Hasc En)
      as (_ & r & Er & _ & Hmax).
    rewrite Er in Ef. injection Ef as <-. now apply Hmax.
Qed.

(** X4. In an index listed by ascending [global_order], the backward
    boundary of a verse of the index is not after the verse and its forward
    boundary is not before it. *)
Theorem boundary_brackets :
  forall (ayahs : list Ayah) (v : Ayah),
    ascending ayahs -> In v ayahs ->
    exists back forth,
      getNearestRukuBoundary ayahs v backward = Some back
      /\ getNearestRukuBoundary ayahs v forward = Some forth
      /\ In back ayahs /\ In forth ayahs
      /\ global_order back <= global_order v <= global_order forth.
Proof.
  intros ayahs v Hasc Hv.
  destruct (backward_boundary_not_after ayahs v Hasc Hv)
    as (back & Eb & Hb & Hle).
  destruct (forward_boundary_not_before ayahs v Hasc Hv)
    as (forth & Ef & Hf & Hge).
  exists back, forth. repeat (split; [assumption|]). lia.
Qed.

Lemma boundary_brackets_witness :
  (ascending dense_index
   /\ In (verse "1:2" 1 2 1 2 1 1 1 false false true) dense_index)
  /\ exists back forth,
       getNearestRukuBoundary dense_index
         (verse "1:2" 1 2 1 2 1 1 1 false false true) backward = Some back
       /\ getNearestRukuBoundary dense_index
            (verse "1:2" 1 2 1 2 1 1 1 false false true) forward = Some forth
       /\ global_order back <= 2 <= global_order forth.
Proof.
  assert (Hasc : ascending dense_index) by (repeat constructor; simpl; lia).
  assert (Hv : In (verse "1:2" 1 2 1 2 1 1 1 false false true) dense_index)
    by (right; left; reflexivity).
  split; [split; assumption|].
  destruct (boundary_brackets dense_index _ Hasc Hv)
    as (back & forth & Eb & Ef & _ & _ & Hb).
  exists back, forth. repeat split; try assumption; apply Hb.
Defined.

(** ** The recitation range of a study question *)

(** X5. In an index listed by ascending [global_order], the range of the
    recite-to-ruku question for a verse of the index is defined, holds the
    verse and its forward boundary, and is exactly the verses numbered from
    the verse to the boundary, in ascending order. *)
Theorem recite_to_ruku_range_spec :
  forall (ayahs : list Ayah) (randomAyah : Ayah),
    ascending ayahs -> In randomAyah ayahs ->
    exists boundary rangeAyahs,
      getNearestRukuBoundary ayahs randomAyah forward = Some boundary
      /\ recite_to_ruku_range ayahs randomAyah = Some rangeAyahs
      /\ In randomAyah rangeAyahs /\ In boundary rangeAyahs
      /\ ascending rangeAyahs
      /\ forall a, In a rangeAyahs
                   <-> In a ayahs
                       /\ global_order randomAyah <= global_order a
                          <= global_order boundary.
Proof.
  intros ayahs v Hasc Hv.
  destruct (forward_boundary_not_before ayahs v Hasc Hv)
    as (forth & Ef & Hf & Hb).
  unfold recite_to_ruku_range. rewrite Ef. exists forth. eexists.
  split; [reflexivity|]. split; [reflexivity|].
  split; [apply filter_range_In; split; [assumption | lia]|].
  split; [apply filter_range_In; split; [assumption | lia]|].
  split; [now apply ascending_filter|].
  intros a. apply filter_range_In.
Qed.

Lemma recite_to_ruku_range_witness :
  (ascending dense_index
   /\ In (verse "1:1" 1 1 1 1 1 1 1 true true false) dense_index)
  /\ exists rangeAyahs,
       recite_to_ruku_range dense_index
         (verse "1:1" 1 1 1 1 1 1 1 true true false) = Some rangeAyahs
       /\ In (verse "1:1" 1 1 1 1 1 1 1 true true false) rangeAyahs.
Proof.
  assert (Hasc : ascending dense_index) by (repeat constructor; simpl; lia).
  assert (Hv : In (verse "1:1" 1 1 1 1 1 1 1 true true false) dense_index)
    by (left; reflexivity).
  split; [split; assumption|].
  destruct (recite_to_ruku_range_spec dense_index _ Hasc Hv)
    as (boundary & rangeAyahs & _ & Er & Hin & _).
  exists rangeAyahs. split; assumption.
Defined.

Lemma ruku_monotone_in_order (ayahs : list Ayah) (x y : Ayah) :
  index_invariants ayahs = true -> In x ayahs -> In y ayahs ->
  global_order x <= global_order y -> ruku_global x <= ruku_global y.
Proof. intros Hinv. now apply ruku_le_of_order. Qed.

(** X6. In an index that satisfies the invariants of the data model and
    numbers its verses consecutively, the range of the recite-to-ruku
    question stays inside the sub-section of the verse it starts from. *)
Theorem recite_to_ruku_range_one_ruku :
  forall (ayahs : list Ayah) (randomAyah : Ayah) (rangeAyahs : list Ayah),
    index_invariants ayahs = true -> consecutive ayahs ->
    In randomAyah ayahs ->
    recite_to_ruku_range ayahs randomAyah = Some rangeAyahs ->
    forall a, In a rangeAyahs -> ruku_global a = ruku_global randomAyah.
Proof.
  intros ayahs v l Hinv Hc Hv El a Ha.
  unfold recite_to_ruku_range in El.
  destruct (getNearestRukuBoundary ayahs v forward) as [b|] eqn:Eb;
    [|discriminate El].
  injection El as <-. apply filter_range_In in Ha. destruct Ha as [Ha Hrange].
  pose proof (ruku_monotone_in_order ayahs v a Hinv Hv Ha (proj1 Hrange))
    as Hle.
  destruct (Z.eq_dec (ruku_global a) (ruku_global v)) as [|Hne]; [assumption|].
  exfalso.
  destruct (first_of_ruku_exists ayahs Hinv (ruku_global a)) as [f Ef];
    [now exists a|].
  apply find_some in Ef. destruct Ef as [Hf Hff]. cbv beta in Hff.
  apply andb_true_iff in Hff. destruct Hff as [Erf Hstart].
  apply Z.eqb_eq in Erf.
  assert (Hfa : global_order f <= global_order a).
  { apply (proj1 (invariants_ruku_start ayahs Hinv f Hf) Hstart);
      [assumption | congruence]. }
  assert (Hvf : global_order v < global_order f).
  { destruct (Z.lt_ge_cases (global_order v) (global_order f)) as [|Hge];
      [assumption|].
    pose proof (ruku_monotone_in_order ayahs f v Hinv Hf Hv Hge). lia. }
  simpl in Eb.
  destruct (find (fun x => (global_order x >? global_order v)
                           && is_ruku_start x) ayahs) as [n|] eqn:En.
  - destruct (boundary_forward_found ayahs v Hv Hc n En)
      as (p & Ep & Hnext & Hprec).
    rewrite Ep in Eb. injection Eb as <-.
    destruct Hnext as (_ & _ & _ & Hmin).
    destruct Hprec as (_ & Hlt & _).
    specialize (Hmin f Hf Hstart Hvf). lia.
  - pose proof (find_none _ _ En f Hf) as Hfalse. cbv beta in Hfalse.
    rewrite Hstart, andb_true_r in Hfalse. to_prop. lia.
Qed.

Lemma recite_to_ruku_range_one_ruku_witness :
  (index_invariants dense_index = true /\ consecutive dense_index
   /\ In (verse "1:1" 1 1 1 1 1 1 1 true true false) dense_index)
  /\ forall a,
       In a [ verse "1:1" 1 1 1 1 1 1 1 true true false;
              verse "1:2" 1 2 1 2 1 1 1 false false true ] ->
       ruku_global a = 1.
Proof.
  assert (Hinv : index_invariants dense_index = true)
    by (vm_compute; reflexivity).
  assert (Hv : In (verse "1:1" 1 1 1 1 1 1 1 true true false) dense_index)
    by (left; reflexivity).
  split; [split; [exact Hinv | split; [exact dense_index_consecutive
                                      | exact Hv]]|].
  apply (recite_to_ruku_range_one_ruku dense_index _ _ Hinv
           dense_index_consecutive Hv).
  reflexivity.
Defined.

(** ** The pool of nested and of growing descriptor lists *)

Lemma sorted_filter {A : Type} (R : A -> A -> Prop) (f : A -> bool)
    (l : list A) :
  StronglySorted R l -> StronglySorted R (filter f l).
Proof.
  induction 1 as [|a l Hs IH Ha]; simpl; [constructor|].
  destruct (f a); [constructor|]; auto.
  rewrite Forall_forall in *. intros x Hx. apply filter_In in Hx.
  now apply Ha.
Qed.

Lemma resolve_range_strictly_ascending (ayahs : list Ayah) (r : TestPoolRange) :
  strictly_ascending ayahs -> strictly_ascending (resolve_range ayahs r).
Proof.
  intros Hs. unfold strictly_ascending in *.
  destruct r; simpl.
  - unfold get_ayahs_between_verse_keys.
    destruct (find _ ayahs); [|constructor].
    destruct (find _ ayahs); [|constructor].
    destruct (_ >? _); [constructor | now apply sorted_filter].
  - unfold get_ayahs_between_rukus.
    destruct (_ || _); [constructor|].
    destruct (Js.index _ 0); [|constructor].
    destruct (Js.index _ _); [|constructor].
    destruct (_ >? _); [constructor | now apply sorted_filter].
  - unfold get_ayahs_for_juz_range.
    destruct (_ >? _); [constructor | now apply sorted_filter].
Qed.

Lemma strictly_ascending_order_identifies (ayahs : list Ayah) :
  strictly_ascending ayahs -> order_identifies ayahs.
Proof.
  intros Hs a b Ha Hb E. now rewrite (strictly_ascending_inj ayahs a b).
Qed.

(** X7. In an index listed by strictly ascending [global_order] in which a
    [verse_key] names one record, when one descriptor of the list resolves
    to a set that contains what every other descriptor resolves to, the pool
    is exactly what that descriptor resolves to; in particular the pool of a
    single descriptor is the resolver's result, unchanged by the map and
    the sort. *)
Theorem buildTestPool_absorbs :
  forall (ayahs : list Ayah) (ranges : list TestPoolRange) (r : TestPoolRange),
    key_identifies ayahs -> strictly_ascending ayahs ->
    In r ranges ->
    (forall r', In r' ranges ->
                incl (resolve_range ayahs r') (resolve_range ayahs r)) ->
    buildTestPool ayahs ranges = resolve_range ayahs r.
Proof.
  intros ayahs ranges r Hkey Hs Hr Hincl. apply strictly_ascending_ext.
  - now apply pool_strictly_ascending, strictly_ascending_order_identifies.
  - now apply resolve_range_strictly_ascending.
  - intros a. rewrite pool_In by assumption. unfold writes.
    rewrite in_flat_map. split.
    + intros (r' & Hr' & Ha). now apply (Hincl r').
    + intros Ha. now exists r.
Qed.

Lemma buildTestPool_absorbs_witness :
  (key_identifies dense_index /\ strictly_ascending dense_index)
  /\ buildTestPool dense_index [AyahRange 1 1 1 2; JuzRange 1 1]
     = get_ayahs_for_juz_range dense_index 1 1.
Proof.
  assert (Hs : strictly_ascending dense_index)
    by (repeat constructor; simpl; lia).
  split; [split; [exact dense_index_key_identifies | exact Hs]|].
  apply (buildTestPool_absorbs dense_index
           [AyahRange 1 1 1 2; JuzRange 1 1] (JuzRange 1 1)
           dense_index_key_identifies Hs).
  - right. left. reflexivity.
  - intros r' [<-|[<-|[]]]; vm_compute; intros a Ha; simpl in *; tauto.
Defined.

Lemma filter_indexed_In {A : Type} (f : A -> Z -> bool) (l : list A) (i : Z)
    (x : A) :
  In x (filter_indexed f l i) -> In x l.
Proof.
  revert i. induction l as [|y l IH]; intros i; simpl; [tauto|].
  destruct (f y i); simpl; intros H.
  - destruct H as [<-|H]; [now left | right; now apply (IH (i + 1))].
  - right. now apply (IH (i + 1)).
Qed.

Lemma pool_monotone (ayahs : list Ayah) (ranges1 ranges2 : list TestPoolRange) :
  key_identifies ayahs -> incl ranges1 ranges2 ->
  incl (buildTestPool ayahs ranges1) (buildTestPool ayahs ranges2).
Proof.
  intros Hkey Hincl a. rewrite !pool_In by assumption. unfold writes.
  rewrite !in_flat_map. intros (r & Hr & Ha). exists r. split; [|assumption].
  now apply Hincl.
Qed.

(** X8. In an index in which a [verse_key] names one record, accepting one
    more descriptor never takes a verse out of the pool, and removing a
    descriptor never brings a new verse into it. *)
Theorem pool_follows_ranges :
  forall (ayahs : list Ayah) (ranges : list TestPoolRange)
         (r : TestPoolRange) (index : Z),
    key_identifies ayahs ->
    incl (buildTestPool ayahs ranges) (buildTestPool ayahs (ranges ++ [r]))
    /\ incl (buildTestPool ayahs (removeRange ranges index))
            (buildTestPool ayahs ranges).
Proof.
  intros ayahs ranges r index Hkey. split; apply pool_monotone; try assumption.
  - intros x Hx. apply in_or_app. now left.
  - intros x Hx. now apply filter_indexed_In in Hx.
Qed.

Lemma pool_follows_ranges_witness :
  key_identifies dense_index
  /\ incl (buildTestPool dense_index [JuzRange 1 1])
          (buildTestPool dense_index ([JuzRange 1 1] ++ [AyahRange 2 1 2 1])).
Proof.
  split; [exact dense_index_key_identifies|].
  apply (pool_follows_ranges dense_index [JuzRange 1 1] (AyahRange 2 1 2 1) 0
           dense_index_key_identifies).
Defined.

(** ** The range builder *)

Lemma filter_indexed_keep {A : Type} (index : Z) (l : list A) (i : Z) :
  index < i ->
  filter_indexed (fun _ j => negb (j =? index)) l i = l.
Proof.
  revert i. induction l as [|x l IH]; intros i Hi; simpl; [reflexivity|].
  destruct (Z.eqb_spec i index); [lia|]. simpl. f_equal. apply IH. lia.
Qed.

Lemma filter_indexed_remove {A : Type} (index : Z) (l : list A) (i : Z) :
  i <= index ->
  filter_indexed (fun _ j => negb (j =? index)) l i
  = firstn (Z.to_nat (index - i)) l ++ skipn (S (Z.to_nat (index - i))) l.
Proof.
  revert i. induction l as [|x l IH]; intros i Hi; simpl.
  - now rewrite firstn_nil.
  - destruct (Z.eqb_spec i index) as [->|Hne]; simpl.
    + rewrite Z.sub_diag. simpl. apply filter_indexed_keep. lia.
    + rewrite IH by lia.
      replace (Z.to_nat (index - i)) with (S (Z.to_nat (index - (i + 1))))
        by lia.
      reflexivity.
Qed.

(** X9. [removeRange] drops the descriptor at position [index] and keeps
    the others in order; for an index below zero or past the end it returns
    the list unchanged. *)
Theorem removeRange_spec :
  forall (ranges : list TestPoolRange) (index : Z),
    (index < 0 \/ Js.length ranges <= index -> removeRange ranges index = ranges)
    /\ (0 <= index < Js.length ranges ->
        removeRange ranges index
        = firstn (Z.to_nat index) ranges ++ skipn (S (Z.to_nat index)) ranges
        /\ Js.length (removeRange ranges index) = Js.length ranges - 1).
Proof.
  intros ranges index. unfold removeRange, Js.length. split.
  - intros [Hneg|Hbig]; [now apply filter_indexed_keep|].
    rewrite filter_indexed_remove by lia. rewrite Z.sub_0_r.
    rewrite firstn_all2, skipn_all2 by lia. apply app_nil_r.
  - intros Hin. rewrite filter_indexed_remove by lia. rewrite Z.sub_0_r.
    split; [reflexivity|].
    rewrite length_app, length_firstn, length_skipn. lia.
Qed.

Lemma removeRange_last (ranges : list TestPoolRange) (r : TestPoolRange) :
  removeRange (ranges ++ [r]) (Js.length ranges) = ranges.
Proof.
  unfold removeRange, Js.length.
  rewrite filter_indexed_remove by lia. rewrite Z.sub_0_r, Nat2Z.id.
  rewrite skipn_all2 by (rewrite length_app; simpl; lia).
  rewrite firstn_app, Nat.sub_diag, firstn_all. simpl.
  now rewrite !app_nil_r.
Qed.

(** X10. [addRange] either reports an error and leaves the descriptor list
    as it was, or reports none and appends exactly one descriptor, of the
    kind of the active tab and carrying the numbers of the form; removing
    the descriptor at the position it was appended at restores the list. *)
Theorem addRange_outcome :
  forall (ayahs : list Ayah) (form : BuilderForm) (ranges : list TestPoolRange),
    let result := addRange ayahs form ranges in
    (error result <> None -> new_ranges result = ranges)
    /\ (error result = None ->
        exists r,
          new_ranges result = ranges ++ [r]
          /\ r = match activeTab form with
                 | type_ayah =>
                     AyahRange (fst (ayahStart form)) (snd (ayahStart form))
                               (fst (ayahEnd form)) (snd (ayahEnd form))
                 | type_ruku =>
                     RukuRange (fst (rukuStart form)) (snd (rukuStart form))
                               (fst (rukuEnd form)) (snd (rukuEnd form))
                 | type_juz => JuzRange (juzStart form) (juzEnd form)
                 end
          /\ removeRange (new_ranges result) (Js.length ranges) = ranges).
Proof.
  intros ayahs form ranges result. subst result. unfold addRange.
  destruct (activeTab form).
  - destruct (find _ ayahs) as [s|]; [|split; [reflexivity | discriminate]].
    destruct (find _ ayahs) as [e|]; [|split; [reflexivity | discriminate]].
    destruct (_ >? _); simpl; split; try reflexivity; try discriminate;
      try congruence.
    intros _. eexists. split; [reflexivity|]. split; [reflexivity|].
    apply removeRange_last.
  - destruct (_ || _); [split; [reflexivity | discriminate]|].
    destruct (Js.index _ 0) as [s0|]; [|split; [reflexivity | discriminate]].
    destruct (Js.index _ 0) as [e0|]; [|split; [reflexivity | discriminate]].
    destruct (_ >? _); simpl; split; try reflexivity; try discriminate;
      try congruence.
    intros _. eexists. split; [reflexivity|]. split; [reflexivity|].
    apply removeRange_last.
  - destruct (_ >? _); simpl; split; try reflexivity; try discriminate;
      try congruence.
    intros _. eexists. split; [reflexivity|]. split; [reflexivity|].
    apply removeRange_last.
Qed.

(** ** Keys written from numbers *)










Lemma index_first_nonempty {A : Type} (l : list A) :
  (Js.length l =? 0) = false ->
  exists x, Js.index l 0 = Some x /\ In x l.
Proof.
  destruct l as [|x l]; [discriminate|]. intros _.
  exists x. split; [reflexivity | now left].
Qed.

(** X12. In an index listed by ascending [global_order], a range the ruku
    tab of the range builder accepts resolves to at least one verse, and a
    selection it rejects as invalid resolves to none. *)
Theorem addRange_ruku_resolves :
  forall (ayahs : list Ayah) (form : BuilderForm) (ranges : list TestPoolRange),
    ascending ayahs ->
    activeTab form = type_ruku ->
    let resolved :=
      resolve_range ayahs
        (RukuRange (fst (rukuStart form)) (snd (rukuStart form))
                   (fst (rukuEnd form)) (snd (rukuEnd form))) in
    (error (addRange ayahs form ranges) = None -> resolved <> [])
    /\ (error (addRange ayahs form ranges) = Some "Invalid ruku selection."
        -> resolved = []).
Proof.
  intros ayahs form ranges Hasc Htab resolved. subst resolved.
  unfold addRange, resolve_range, get_ayahs_between_rukus.
  rewrite Htab. cbv zeta.
  set (S := get_ayahs_for_ruku ayahs (fst (rukuStart form))
                               (snd (rukuStart form))).
  set (E := get_ayahs_for_ruku ayahs (fst (rukuEnd form))
                               (snd (rukuEnd form))).
  destruct ((Js.length S =? 0) || (Js.length E =? 0)) eqn:G.
  { split; [discriminate | reflexivity]. }
  destruct (between_rukus_reads_defined S E G) as (s0 & last & Es & El).
  rewrite Es, El.
  assert (HE : ascending E) by now apply ascending_filter.
  destruct (ascending_last E last HE El) as [_ Hmax].
  apply orb_false_iff in G. destruct G as [GS GE].
  destruct (index_first_nonempty E GE) as (e0 & Ee & He0). rewrite Ee.
  destruct (index_first_nonempty S GS) as (s0' & Es' & Hs0).
  rewrite Es in Es'. injection Es' as <-.
  apply get_ayahs_for_ruku_In in Hs0. destruct Hs0 as [Hs0 _].
  specialize (Hmax e0 He0).
  destruct (global_order s0 >? global_order e0) eqn:C; simpl;
    (split; [|discriminate]); [discriminate|].
  intros _. rewrite Z.gtb_ltb in C. apply Z.ltb_ge in C.
  destruct (global_order s0 >? global_order last) eqn:C'.
  { rewrite Z.gtb_ltb in C'. apply Z.ltb_lt in C'. lia. }
  intros Hnil. assert (Hin : In s0 []); [|destruct Hin].
  rewrite <- Hnil. apply filter_range_In. split; [assumption | lia].
Qed.

Lemma addRange_ruku_resolves_witness :
  (ascending dense_index
   /\ activeTab (mkForm type_ruku (1, 1) (1, 1) (1, 1) (1, 2) 1 1) = type_ruku)
  /\ resolve_range dense_index (RukuRange 1 1 1 2) <> [].
Proof.
  assert (Hasc : ascending dense_index) by (repeat constructor; simpl; lia).
  split; [split; [exact Hasc | reflexivity]|].
  apply (addRange_ruku_resolves dense_index
           (mkForm type_ruku (1, 1) (1, 1) (1, 1) (1, 2) 1 1) [] Hasc eq_refl).
  reflexivity.
Defined.

(** ** The ruku options of a juz *)

Lemma set_add_In (x y : Z) (s : list Z) :
  In y (set_add x s) <-> y = x \/ In y s.
Proof.
  induction s as [|z s IH]; simpl.
  - split; [intros [<-|[]]; auto | intros [->|[]]; auto].
  - destruct (Z.eqb_spec z x) as [->|Hne]; simpl.
    + split; [tauto | intros [->|H]; tauto].
    + rewrite IH. split; [intros [|[|]] | intros [|[|]]]; auto.
Qed.

Lemma set_add_NoDup (x : Z) (s : list Z) : NoDup s -> NoDup (set_add x s).
Proof.
  induction 1 as [|z s Hz Hs IH]; simpl.
  - repeat constructor. intros [].
  - destruct (Z.eqb_spec z x) as [->|Hne]; [now constructor|].
    constructor; [|assumption]. rewrite set_add_In. intros [->|H]; auto.
Qed.

Lemma set_of_spec (arr : list Z) :
  NoDup (set_of arr) /\ forall y, In y (set_of arr) <-> In y arr.
Proof.
  unfold set_of.
  assert (H : forall s, NoDup s ->
            NoDup (fold_left (fun s x => set_add x s) arr s)
            /\ forall y, In y (fold_left (fun s x => set_add x s) arr s)
                         <-> In y s \/ In y arr).
  { induction arr as [|x arr IH]; intros s Hs; simpl.
    - split; [assumption | intros y; tauto].
    - destruct (IH (set_add x s) (set_add_NoDup x s Hs)) as [Hn Hin].
      split; [assumption|]. intros y. rewrite Hin, set_add_In.
      split; [intros [[->|]|] | intros [|[->|]]]; auto. }
  destruct (H [] (NoDup_nil Z)) as [Hn Hin]. split; [assumption|].
  intros y. rewrite Hin. simpl. tauto.
Qed.

Lemma insert_number_perm (x : Z) (l : list Z) :
  Permutation (x :: l) (insert_number x l).
Proof.
  induction l as [|y l IH]; simpl; [reflexivity|].
  destruct (x <=? y); [reflexivity|]. rewrite perm_swap. now constructor.
Qed.

Lemma sort_numbers_perm (l : list Z) : Permutation l (sort_numbers l).
Proof.
  induction l as [|x l IH]; simpl; [constructor|].
  rewrite <- insert_number_perm. now constructor.
Qed.

Lemma insert_number_sorted (x : Z) (l : list Z) :
  StronglySorted Z.le l -> StronglySorted Z.le (insert_number x l).
Proof.
  induction 1 as [|y l Hs IH Hy]; simpl; [repeat constructor|].
  destruct (Z.leb_spec x y).
  - constructor; [now constructor|]. constructor; [assumption|].
    eapply Forall_impl; [|exact Hy]. simpl. intros. lia.
  - constructor; [assumption|]. rewrite Forall_forall in *. intros z Hz.
    apply (Permutation_in _ (Permutation_sym (insert_number_perm x l))) in Hz.
    destruct Hz as [<-|Hz]; [lia | auto].
Qed.

Lemma sort_numbers_sorted (l : list Z) : StronglySorted Z.le (sort_numbers l).
Proof.
  induction l as [|x l IH]; simpl; [constructor|].
  now apply insert_number_sorted.
Qed.

Lemma sorted_distinct_strict (l : list Z) :
  StronglySorted Z.le l -> NoDup l -> StronglySorted Z.lt l.
Proof.
  induction 1 as [|x l Hs IH Hx]; intros Hn; [constructor|].
  apply NoDup_cons_iff in Hn. destruct Hn as [Hnx Hn].
  constructor; [auto|]. rewrite Forall_forall in *. intros y Hy.
  specialize (Hx y Hy). assert (x <> y) by (intros ->; contradiction). lia.
Qed.

(** X13. The ruku options [getValidRukus] offers for a juz are listed in
    strictly ascending order, without repetition, and a number is offered
    exactly when [get_ayahs_for_ruku] finds at least one verse for it in
    that juz. *)
Theorem getValidRukus_spec :
  forall (ayahs : list Ayah) (juz : Z),
    StronglySorted Z.lt (getValidRukus ayahs juz)
    /\ forall r, In r (getValidRukus ayahs juz)
                 <-> get_ayahs_for_ruku ayahs juz r <> [].
Proof.
  intros ayahs juz. unfold getValidRukus.
  set (arr := map ruku_in_juz (filter (fun a => juz_number a =? juz) ayahs)).
  destruct (set_of_spec arr) as [Hn Hin]. split.
  - apply sorted_distinct_strict; [apply sort_numbers_sorted|].
    apply (Permutation_NoDup (sort_numbers_perm (set_of arr)) Hn).
  - intros r.
    assert (Hperm : In r (sort_numbers (set_of arr)) <-> In r arr).
    { rewrite <- Hin. split; apply Permutation_in;
        [apply Permutation_sym|]; apply sort_numbers_perm. }
    rewrite Hperm. unfold arr. rewrite in_map_iff. split.
    + intros (a & Er & Ha) Hnil. apply filter_In in Ha.
      destruct Ha as [Ha Ej]. apply Z.eqb_eq in Ej.
      assert (Hin' : In a []); [|destruct Hin'].
      rewrite <- Hnil. apply get_ayahs_for_ruku_In. auto.
    + intros Hne. destruct (get_ayahs_for_ruku ayahs juz r) as [|a l] eqn:E;
        [contradiction|].
      assert (Ha : In a (get_ayahs_for_ruku ayahs juz r))
        by (rewrite E; now left).
      apply get_ayahs_for_ruku_In in Ha. destruct Ha as (Ha & Ej & Er).
      exists a. split; [assumption|]. apply filter_In.
      split; [assumption | now apply Z.eqb_eq].
Qed.

(** ** Attempt tallies *)

Section Tables.

Context {K : Type}.
Variable eqb : K -> K -> bool.
Hypothesis eqb_spec : forall x y, eqb x y = true <-> x = y.
Variable key : Attempt.t -> K.

Lemma eqb_same (k : K) : eqb k k = true.
Proof. now apply eqb_spec. Qed.

Lemma eqb_other (k k' : K) : k <> k' -> eqb k k' = false.
Proof.
  intros Hne. destruct (eqb k k') eqn:E; [|reflexivity].
  apply eqb_spec in E. contradiction.
Qed.

Lemma tally_attempt_same (k : K) (b : bool) (t : Table K) :
  tally_attempt eqb k b t k
  = Some (mkTally (correct (tally_base (t k)) + (if b then 1 else 0))
                  (total (tally_base (t k)) + 1)).
Proof.
  unfold tally_attempt, table_set.
  destruct (t k) as [s|] eqn:E; rewrite ?E, ?eqb_same; simpl;
    rewrite ?eqb_same; destruct b; simpl; rewrite ?eqb_same;
    repeat f_equal; lia.
Qed.

Lemma tally_attempt_other (k k' : K) (b : bool) (t : Table K) :
  k <> k' -> tally_attempt eqb k b t k' = t k'.
Proof.
  intros Hne. unfold tally_attempt, table_set.
  destruct (t k) as [s|] eqn:E; rewrite ?E, ?eqb_same; simpl;
    rewrite ?eqb_same; destruct b; simpl; rewrite ?eqb_same, ?eqb_other;
    auto.
Qed.

Lemma tally_of_nil (base : Tally) : tally_of base [] = base.
Proof.
  destruct base as [c t]. unfold tally_of, Js.length. simpl.
  f_equal; lia.
Qed.

Lemma tally_of_cons (base : Tally) (a : Attempt.t) (hits : list Attempt.t) :
  tally_of base (a :: hits)
  = tally_of (mkTally (correct base + (if Attempt.correct a then 1 else 0))
                      (total base + 1)) hits.
Proof.
  unfold tally_of, Js.length. cbn [filter correct total List.length].
  destruct (Attempt.correct a); cbn [List.length];
    rewrite ?Nat2Z.inj_succ; f_equal; lia.
Qed.

(** A table after a run of attempts, read at one key. *)
Lemma fold_tally (attempts : list Attempt.t) (t0 : Table K) (k : K) :
  fold_left (fun t a => tally_attempt eqb (key a) (Attempt.correct a) t)
            attempts t0 k
  = match filter (fun a => eqb (key a) k) attempts with
    | [] => t0 k
    | hits => Some (tally_of (tally_base (t0 k)) hits)
    end.
Proof.
  revert t0. induction attempts as [|a l IH]; intros t0;
    [reflexivity|].
  cbn [fold_left filter]. rewrite IH. destruct (eqb (key a) k) eqn:E.
  - apply eqb_spec in E. subst k. rewrite tally_attempt_same.
    rewrite tally_of_cons. cbn [tally_base].
    destruct (filter (fun x => eqb (key x) (key a)) l) as [|h hits];
      [now rewrite tally_of_nil | reflexivity].
  - assert (Hne : key a <> k)
      by (intros Heq; apply eqb_spec in Heq; congruence).
    now rewrite tally_attempt_other.
Qed.

End Tables.

Lemma Z_eqb_spec_iff (x y : Z) : (x =? y) = true <-> x = y.
Proof. apply Z.eqb_eq. Qed.

Lemma filter_length_le {A : Type} (f : A -> bool) (l : list A) :
  Js.length (filter f l) <= Js.length l.
Proof.
  unfold Js.length. induction l as [|x l IH]; simpl; [lia|].
  destruct (f x); simpl; lia.
Qed.

(** X14. For every list of attempts and every page, the quiz view's stats
    hold no entry for a page without attempts, and for a page with attempts
    the number of them as [total] and the number of correct ones as
    [correct]; so wherever an entry exists [total] is at least 1 and
    [correct] lies between 0 and [total]. *)
Theorem quiz_stats_counts :
  forall (attempts : list Attempt.t) (page : Z),
    let hits := filter (fun a => Attempt.page_13line a =? page) attempts in
    quiz_stats attempts page
    = match hits with
      | [] => None
      | _ => Some (mkTally (Js.length (filter Attempt.correct hits))
                           (Js.length hits))
      end
    /\ forall s, quiz_stats attempts page = Some s ->
                 0 <= correct s <= total s /\ 1 <= total s.
Proof.
  intros attempts page hits.
  assert (E : quiz_stats attempts page
              = match hits with
                | [] => None
                | _ => Some (mkTally (Js.length (filter Attempt.correct hits))
                                     (Js.length hits))
                end).
  { unfold quiz_stats.
    rewrite (fold_tally Z.eqb Z_eqb_spec_iff Attempt.page_13line).
    fold hits. destruct hits; reflexivity. }
  split; [exact E|]. intros s Hs. rewrite E in Hs.
  destruct hits as [|h hits'] eqn:Eh; [discriminate|].
  injection Hs as <-. simpl correct. simpl total.
  pose proof (filter_length_le Attempt.correct (h :: hits')).
  unfold Js.length in *. simpl List.length in *. lia.
Qed.

Lemma progress_fold_tables (attempts : list Attempt.t) (T0 : ProgressTables) :
  pageAccuracy (fold_left progress_step attempts T0)
  = fold_left (fun t a => tally_attempt Z.eqb (Attempt.page_13line a)
                                        (Attempt.correct a) t)
              attempts (pageAccuracy T0)
  /\ juzAccuracy (fold_left progress_step attempts T0)
     = fold_left (fun t a => tally_attempt Z.eqb (Attempt.juz_number a)
                                           (Attempt.correct a) t)
                 attempts (juzAccuracy T0).
Proof.
  revert T0. induction attempts as [|a l IH]; intros T0; simpl;
    [split; reflexivity|].
  destruct (IH (progress_step T0 a)) as [-> ->]. split; reflexivity.
Qed.

(** X15. The progress view builds no tables exactly when there is no
    attempt; otherwise its per-page table is, key by key, the quiz view's
    stats of the same attempts, and its per-juz table holds for each juz
    with attempts their number and the number of correct ones. *)
Theorem progress_tables_agree :
  forall (attempts : list Attempt.t),
    (progress_tables attempts = None <-> attempts = [])
    /\ forall tables, progress_tables attempts = Some tables ->
         (forall page, pageAccuracy tables page = quiz_stats attempts page)
         /\ (forall juz,
               juzAccuracy tables juz
               = match filter (fun a => Attempt.juz_number a =? juz)
                              attempts with
                 | [] => None
                 | hits =>
                     Some (mkTally (Js.length (filter Attempt.correct hits))
                                   (Js.length hits))
                 end).
Proof.
  intros attempts. unfold progress_tables. split.
  - destruct attempts; simpl; split; try reflexivity; discriminate.
  - intros tables Et.
    destruct (Js.length attempts =? 0); [discriminate|].
    injection Et as <-.
    destruct (progress_fold_tables attempts
                (mkTables table_empty table_empty table_empty)) as [Ep Ej].
    split.
    + intros page. now rewrite Ep.
    + intros juz. rewrite Ej.
      rewrite (fold_tally Z.eqb Z_eqb_spec_iff Attempt.juz_number).
      destruct (filter _ attempts); reflexivity.
Qed.

(** ** A ruku range from a sub-section to itself *)

(** X16. In an index listed by ascending [global_order], when the verses of
    a pair (juz, ruku in juz) form one run of the index, the ruku range from
    that pair to itself resolves to exactly the verses of the pair. *)
Theorem get_ayahs_between_rukus_same_pair :
  forall (ayahs : list Ayah) (juz ruku : Z),
    ascending ayahs -> pair_is_run ayahs juz ruku ->
    get_ayahs_between_rukus ayahs juz ruku juz ruku
    = get_ayahs_for_ruku ayahs juz ruku.
Proof.
  intros ayahs juz ruku Hasc Hrun. unfold get_ayahs_between_rukus.
  set (S := get_ayahs_for_ruku ayahs juz ruku).
  assert (HS : ascending S) by now apply ascending_filter.
  destruct ((Js.length S =? 0) || (Js.length S =? 0)) eqn:G.
  { rewrite orb_diag in G. apply length_zero_iff in G. now rewrite G. }
  destruct (between_rukus_reads_defined S S G) as (first & last & Ef & El).
  rewrite Ef, El.
  destruct (ascending_head S first HS Ef) as [Hf Hmin].
  destruct (ascending_last S last HS El) as [Hl Hmax].
  pose proof (Hmax first Hf) as Hfl.
  destruct (global_order first >? global_order last) eqn:C.
  { rewrite Z.gtb_ltb in C. apply Z.ltb_lt in C. lia. }
  unfold S. unfold get_ayahs_for_ruku at 1. apply filter_ext_in.
  intros a Ha. apply Bool.eq_iff_eq_true.
  rewrite in_range_iff, andb_true_iff, !Z.eqb_eq.
  apply get_ayahs_for_ruku_In in Hf, Hl.
  destruct Hf as (Hf & Hfj & Hfr), Hl as (Hl & Hlj & Hlr). split.
  - intros Hrange. apply (Hrun first a last); assumption.
  - intros [Hj Hr].
    assert (HaS : In a S) by (apply get_ayahs_for_ruku_In; auto).
    split; [now apply Hmin | now apply Hmax].
Qed.

Lemma get_ayahs_between_rukus_same_pair_witness :
  (ascending dense_index /\ pair_is_run dense_index 1 1)
  /\ get_ayahs_between_rukus dense_index 1 1 1 1
     = [ verse "1:1" 1 1 1 1 1 1 1 true true false;
         verse "1:2" 1 2 1 2 1 1 1 false false true ].
Proof.
  assert (Hasc : ascending dense_index) by (repeat constructor; simpl; lia).
  assert (Hrun : pair_is_run dense_index 1 1).
  { intros a b c Ha Hb Hc Haj Har Hcj Hcr Hle. unfold dense_index in *.
    index_cases; simpl in *; try lia; split; reflexivity. }
  split; [split; assumption|].
  rewrite (get_ayahs_between_rukus_same_pair dense_index 1 1 Hasc Hrun).
  reflexivity.
Defined.
